(** * Smart-Route: the penalised nearest-neighbour route builder

    A shallow embedding of the route core of [main.py] (the same functions
    are duplicated in [app.py]):

    - [calculate_angle]: the signed turning angle at a vertex;
    - [solve_tsp_nearest_neighbor_with_right_turn_penalty]: the greedy tour
      construction (the specification calls it [buildOrder]);
    - the total-distance expression of [optimize_route] (the specification
      calls it [totalCost]).

    Python floats are idealised: coordinates, angles and finite costs are
    real numbers, and a cost is either a real or the sentinel [+inf] that
    [get_distance_matrix] stores for a pair without a route.  NaN and
    [-inf] do not occur in these inputs and are not represented.  Neither
    is the rounding or the overflow of float arithmetic: a sum of finite
    costs is exact and finite here, and an angle is the exact one. *)

From Equations Require Import Equations.
From Stdlib Require Import Reals Lra Lia List Arith ZArith Bool Permutation.
From Stdlib Require String Ascii.
Import ListNotations.

Open Scope R_scope.

(** ** Numbers *)

Module Geometry.

(** [math.atan2 y x] over the reals: the angle of the vector [(x, y)] with
    the positive x axis, in [(-PI, PI]]; [atan2 0 0 = 0] as in Python. *)
Definition atan2 (y x : R) : R :=
  if Rlt_dec 0 x then atan (y / x)
  else if Rlt_dec x 0 then
    if Rle_dec 0 y then atan (y / x) + PI else atan (y / x) - PI
  else if Rlt_dec 0 y then PI / 2
  else if Rlt_dec y 0 then - PI / 2
  else 0.

(** [math.degrees]. *)
Definition degrees (x : R) : R := x * (180 / PI).

(** Number of turns of 360 still to add while [angle <= -180]. *)
Definition turns_below (angle : R) : nat := Z.to_nat (up (- angle / 360)).

(** Number of turns of 360 still to subtract while [angle > 180]. *)
Definition turns_above (angle : R) : nat := Z.to_nat (up (angle / 360)).

(** [while angle <= -180: angle += 360] *)
Equations? while_le_add (angle : R) : R by wf (turns_below angle) lt :=
  while_le_add angle with Rle_dec angle (-180) := {
    | left _ := while_le_add (angle + 360);
    | right _ := angle }.
Proof.
  unfold turns_below.
  replace (- (angle + 360) / 360) with (- angle / 360 - 1) by (field; lra).
  destruct (archimed (- angle / 360)) as [Hlo Hhi].
  assert (Hup : up (- angle / 360 - 1) = (up (- angle / 360) - 1)%Z)
    by (symmetry; apply tech_up; rewrite minus_IZR; simpl; lra).
  assert (0 < up (- angle / 360))%Z by (apply lt_IZR; simpl; lra).
  rewrite Hup. lia.
Qed.

(** [while angle > 180: angle -= 360] *)
Equations? while_gt_sub (angle : R) : R by wf (turns_above angle) lt :=
  while_gt_sub angle with Rgt_dec angle 180 := {
    | left _ := while_gt_sub (angle - 360);
    | right _ := angle }.
Proof.
  unfold turns_above.
  replace ((angle - 360) / 360) with (angle / 360 - 1) by (field; lra).
  destruct (archimed (angle / 360)) as [Hlo Hhi].
  assert (Hup : up (angle / 360 - 1) = (up (angle / 360) - 1)%Z)
    by (symmetry; apply tech_up; rewrite minus_IZR; simpl; lra).
  assert (0 < up (angle / 360))%Z by (apply lt_IZR; simpl; lra).
  rewrite Hup. lia.
Qed.

Definition point : Type := R * R.

Definition to_vec (a b : point) : point := (fst b - fst a, snd b - snd a).

(** [calculate_angle(p1, p2, p3)], main.py lines 104-121. *)
Definition calculate_angle (p1 p2 p3 : point) : R :=
  let v1 := to_vec p2 p1 in
  let v2 := to_vec p2 p3 in
  let angle1 := atan2 (snd v1) (fst v1) in
  let angle2 := atan2 (snd v2) (fst v2) in
  let angle := degrees (angle2 - angle1) in
  let angle := while_le_add angle in
  let angle := while_gt_sub angle in
  angle.

End Geometry.

(** ** Route construction *)

Module Route.
Import Geometry.

(** A travel cost: a real number of metres, or [+inf] for a pair without a
    known route ([np.inf] in [get_distance_matrix]). *)
Inductive cost : Type :=
| Fin (r : R)
| PInf.

(** Float addition restricted to reals and [+inf]. *)
Definition cost_add (a b : cost) : cost :=
  match a, b with
  | Fin x, Fin y => Fin (x + y)
  | _, _ => PInf
  end.

(** Float comparison [a < b]; [inf < inf] is false. *)
Definition cost_ltb (a b : cost) : bool :=
  match a, b with
  | Fin x, Fin y => if Rlt_dec x y then true else false
  | Fin _, PInf => true
  | PInf, _ => false
  end.

(** The exceptions the core can raise. *)
Inductive exn : Type :=
| IndexError
| KeyError.

Inductive result (A : Type) : Type :=
| Ok (a : A)
| Raise (e : exn).
Arguments Ok {A} a.
Arguments Raise {A} e.

Definition bind {A B : Type} (m : result A) (k : A -> result B) : result B :=
  match m with
  | Ok a => k a
  | Raise e => Raise e
  end.

#[local] Notation "x <- m ;; k" := (bind m (fun x => k))
  (at level 61, m at next level, right associativity).

(** A value together with the equation that names it, so that a [with]
    clause keeps [m = Ok a] in scope. *)
Definition inspect {A : Type} (x : A) : {y : A | x = y} := exist _ x eq_refl.

(** [l[i]] for a non-negative index. *)
Definition getitem {A : Type} (l : list A) (i : nat) : result A :=
  match nth_error l i with
  | Some a => Ok a
  | None => Raise IndexError
  end.

(** [s.remove(x)] on the set [s]; [next_city] is [None] when no candidate
    was selected, and [None] is never a member. *)
Definition set_remove (x : option nat) (s : list nat) : result (list nat) :=
  match x with
  | Some c =>
      if in_dec Nat.eq_dec c s then Ok (remove Nat.eq_dec c s)
      else Raise KeyError
  | None => Raise KeyError
  end.

(** [-135 < angle < -45] *)
Definition right_turn (angle : R) : bool :=
  if Rlt_dec (-135) angle then if Rlt_dec angle (-45) then true else false
  else false.

(** The variables of the [while] loop.  The set [unvisited] is kept as the
    list of its members in iteration order: CPython stores the integers of
    [set(range(1, n))] at slot [i] of a table with more than [n] slots, so
    the set is iterated in increasing order, and removals keep that order. *)
Record state : Type := mkState {
  order : list nat;
  unvisited : list nat;
  current : nat;
  prev : option nat
}.

Section Solver.

Variable coords : list point.
Variable matrix : list (list cost).
Variable right_turn_penalty : cost.

(** Lines 140-146: the cost of [city] seen from [cur], with the penalty. *)
Definition candidate_cost (prv : option nat) (cur city : nat) : result cost :=
  row <- getitem matrix cur ;;
  cost <- getitem row city ;;
  match prv with
  | Some p =>
      p1 <- getitem coords p ;;
      p2 <- getitem coords cur ;;
      p3 <- getitem coords city ;;
      let angle := calculate_angle p1 p2 p3 in
      if right_turn angle then Ok (cost_add cost right_turn_penalty)
      else Ok cost
  | None => Ok cost
  end.

(** Lines 139-150: the scan of the candidates; the accumulator is
    [(min_cost, next_city)]. *)
Fixpoint for_city (prv : option nat) (cur : nat) (cities : list nat)
    (acc : cost * option nat) : result (cost * option nat) :=
  match cities with
  | [] => Ok acc
  | city :: rest =>
      cost <- candidate_cost prv cur city ;;
      if cost_ltb cost (fst acc) then for_city prv cur rest (cost, Some city)
      else for_city prv cur rest acc
  end.

(** Lines 136-155: one iteration of the [while] loop.  When no candidate
    was selected, [order.append(None)] is followed by the [KeyError] of
    [unvisited.remove(None)]. *)
Definition loop_body (s : state) : result state :=
  best <- for_city (prev s) (current s) (unvisited s) (PInf, None) ;;
  let next_city := snd best in
  rest <- set_remove next_city (unvisited s) ;;
  match next_city with
  | Some c =>
      Ok {| order := order s ++ [c];
            unvisited := rest;
            current := c;
            prev := Some (current s) |}
  | None => Raise KeyError
  end.

(** Line 135: [while unvisited: ...] *)
Equations? while_unvisited (s : state) : result state
    by wf (length (unvisited s)) lt :=
  while_unvisited s with inspect (unvisited s) := {
    | exist _ [] _ := Ok s;
    | exist _ (_ :: _) _ with inspect (loop_body s) := {
        | exist _ (Ok s') Hbody := while_unvisited s';
        | exist _ (Raise e) _ := Raise e } }.
Proof.
  unfold loop_body in Hbody.
  destruct (for_city _ _ _ _) as [[m [c|]]|]; simpl in Hbody; try discriminate.
  destruct (in_dec Nat.eq_dec c (unvisited s)) as [Hin|]; simpl in Hbody;
    try discriminate.
  injection Hbody as <-. simpl. apply remove_length_lt. exact Hin.
Qed.

(** Lines 129-133: the variables before the loop; [range(1, n)] is empty
    for [n <= 1]. *)
Definition initial_state : state :=
  let n := length matrix in
  {| order := [0%nat];
     unvisited := seq 1 (n - 1);
     current := 0%nat;
     prev := None |}.

(** [solve_tsp_nearest_neighbor_with_right_turn_penalty], main.py lines
    123-157. *)
Definition solve_tsp_nearest_neighbor_with_right_turn_penalty
    : result (list nat) :=
  s <- while_unvisited initial_state ;;
  Ok (order s).

(** [k] iterations of the loop body in a row. *)
Fixpoint iterate_body (k : nat) (s : state) : result state :=
  match k with
  | O => Ok s
  | S k' => s' <- loop_body s ;; iterate_body k' s'
  end.

End Solver.

(** Line 248 of main.py:
    [sum(matrix[order[i]][order[i+1]] for i in range(len(order)-1))] *)
Definition leg (matrix : list (list cost)) (order : list nat) (i : nat)
    : result cost :=
  a <- getitem order i ;;
  row <- getitem matrix a ;;
  b <- getitem order (i + 1) ;;
  getitem row b.

Fixpoint sum_from (start : cost) (terms : list (result cost)) : result cost :=
  match terms with
  | [] => Ok start
  | t :: rest => x <- t ;; sum_from (cost_add start x) rest
  end.

Definition total_distance (matrix : list (list cost)) (order : list nat)
    : result cost :=
  sum_from (Fin 0) (map (leg matrix order) (seq 0 (length order - 1))).

End Route.

(** ** Notions used in the statements *)

Module Notions.
Import Geometry Route.

(** The value returned after both loops. *)
Definition normalize (a : R) : R := while_gt_sub (while_le_add a).

(** The total cost as the specification words it, to be compared with
    [total_distance]: the sum of [matrix[a][b]] over the consecutive pairs
    [(a, b)] of the order, and [0] for an order with fewer than two stops. *)
Fixpoint totalCost (matrix : list (list cost)) (order : list nat)
    : result cost :=
  match order with
  | a :: (b :: _) as rest =>
      bind (getitem matrix a) (fun row =>
      bind (getitem row b) (fun x =>
      bind (totalCost matrix rest) (fun r => Ok (cost_add x r))))
  | _ => Ok (Fin 0)
  end.

(** Entry [(i, j)] as the loop reads it: [matrix[i][j]]. *)
Definition entry (matrix : list (list cost)) (i j : nat) : result cost :=
  bind (getitem matrix i) (fun row => getitem row j).

(** Two matrices of the same size with the same entries off the diagonal. *)
Definition agree_off_diagonal (m1 m2 : list (list cost)) : Prop :=
  length m1 = length m2 /\
  forall i j, i <> j -> entry m1 i j = entry m2 i j.

(** What holds of the loop variables at the head of the loop. *)
Record loop_invariant (matrix : list (list cost)) (s : state) : Prop := {
  inv_perm : Permutation (order s ++ unvisited s) (seq 0 (length matrix));
  inv_start : hd_error (order s) = Some 0%nat;
  inv_current : (current s < length matrix)%nat;
  inv_fresh : ~ In (current s) (unvisited s);
  inv_prev : forall p, prev s = Some p -> (p < length matrix)%nat
}.



(** Two stops without a route between them. *)
Definition coords_apart : list point := [(0, 0); (1, 1)].
Definition matrix_apart : list (list cost) := [[Fin 0; PInf]; [PInf; Fin 0]].

(** Three stops, the last one unreachable from the other two. *)
Definition coords_island : list point := [(0, 0); (0, 1); (1, 1)].
Definition matrix_island : list (list cost) :=
  [[Fin 0; Fin 1; PInf]; [Fin 1; Fin 0; PInf]; [PInf; PInf; Fin 0]].

(** Three stops, no route between any two of them. *)
Definition matrix_scattered : list (list cost) :=
  [[Fin 0; PInf; PInf]; [PInf; Fin 0; PInf]; [PInf; PInf; Fin 0]].

(** The specification's example: stop A = (0,1), stop B = (0,0),
    stop C = (1,0), with its cost matrix. *)
Definition coords_corner : list point := [(0, 1); (0, 0); (1, 0)].
Definition matrix_corner : list (list cost) :=
  [[Fin 0; Fin 10; Fin 20]; [Fin 10; Fin 0; Fin 15]; [Fin 20; Fin 15; Fin 0]].

(** Two candidates at the same distance: the first one scanned wins. *)
Definition matrix_tie : list (list cost) :=
  [[Fin 0; Fin 5; Fin 5]; [Fin 5; Fin 0; Fin 1]; [Fin 5; Fin 1; Fin 0]].

(** The corner example with a fourth stop D = (-1,0) on the other side of
    B: C is near B but a right turn away, D is far but a left turn away. *)
Definition coords_cross : list point := [(0, 1); (0, 0); (1, 0); (-1, 0)].
Definition matrix_cross : list (list cost) :=
  [[Fin 0; Fin 10; Fin 50; Fin 50];
   [Fin 10; Fin 0; Fin 15; Fin 100];
   [Fin 50; Fin 15; Fin 0; Fin 30];
   [Fin 50; Fin 100; Fin 30; Fin 0]].

(** The corner matrix with other values on its diagonal. *)
Definition matrix_corner_diag : list (list cost) :=
  [[Fin 7; Fin 10; Fin 20]; [Fin 10; PInf; Fin 15]; [Fin 20; Fin 15; Fin 3]].

End Notions.

(** ** The service around the route core

    The remaining functions of [main.py]: the tag stripping and the
    directions list of [get_route_directions], the matrix filling of
    [get_distance_matrix], [geocode_address], and the endpoints
    [optimize_route] and [get_directions].  The HTTP exchanges are outside
    the program: the parsed JSON body of each response, or the failure of
    the request, is taken as given. *)

Module Service.
Import Geometry Route.
Import String Ascii.
#[local] Open Scope list_scope.

#[local] Notation "x <- m ;; k" := (bind m (fun x => k))
  (at level 61, m at next level, right associativity).

(** *** [re.sub('<[^<]+?>', '', s)]

    Text is a string of 8-bit characters here; the expression tells only
    [<] and [>] from the other characters. *)

(** After [<] and at least one other character: the lazy [[^<]+?] takes
    characters up to the first [>]; a [<] met before it ends the attempt.
    The result is what follows the match. *)
Fixpoint scan_tag (s : string) : option string :=
  match s with
  | EmptyString => None
  | String c rest =>
      if Ascii.eqb c ">" then Some rest
      else if Ascii.eqb c "<" then None
      else scan_tag rest
  end.

(** A match of [<[^<]+?>] whose [<] has just been read: the next character
    must exist and not be [<] (it may be [>]). *)
Definition match_tag (s : string) : option string :=
  match s with
  | EmptyString => None
  | String c rest => if Ascii.eqb c "<" then None else scan_tag rest
  end.

(** The leftmost matches are deleted one after the other; a character at
    which no match starts is kept. *)
Equations? strip_tags (s : string) : string by wf (String.length s) lt :=
  strip_tags EmptyString := EmptyString;
  strip_tags (String c rest)
    with inspect (if Ascii.eqb c "<" then match_tag rest else None) := {
    | exist _ (Some after) Hmatch := strip_tags after;
    | exist _ None _ := String c (strip_tags rest) }.
Proof.
  assert (Hscan : forall t u, scan_tag t = Some u ->
                    (String.length u < String.length t)%nat).
  { induction t as [|d t IH]; intros u H; simpl in H; [discriminate|].
    destruct (Ascii.eqb d ">").
    - injection H as <-. simpl. lia.
    - destruct (Ascii.eqb d "<"); [discriminate|].
      apply IH in H. simpl. lia. }
  destruct (Ascii.eqb c "<"); [|discriminate].
  destruct rest as [|d rest]; simpl in Hmatch; [discriminate|].
  destruct (Ascii.eqb d "<"); [discriminate|].
  apply Hscan in Hmatch. simpl. lia.
Qed.

(** *** JSON bodies

    A field is [None] when its key (or a key on the way to it) is absent
    from the object, which makes the subscript raise [KeyError]. *)
Inductive response (A : Type) : Type :=
| RequestException
| Json (data : A).
Arguments RequestException {A}.
Arguments Json {A} data.

Definition key {A : Type} (field : option A) : result A :=
  match field with
  | Some a => Ok a
  | None => Raise KeyError
  end.

(** [element["status"]] and [element["distance"]["value"]]. *)
Record element : Type := mkElement {
  status : option string;
  distance_value : option R
}.

(** [row["elements"]] and [data["rows"]]. *)
Record row_json : Type := mkRow { elements : option (list element) }.
Record matrix_json : Type := mkMatrix { rows : option (list row_json) }.

(** [results[0]["geometry"]["location"]["lat"]], [...["lng"]] and
    [results[0]["formatted_address"]]; [resp.json().get("results")]. *)
Record geocode_result : Type := mkGeocode {
  geo_lat : option R;
  geo_lng : option R;
  formatted_address : option string
}.
Record geocode_json : Type := mkGeocodeBody {
  results : option (list geocode_result)
}.

(** [step["html_instructions"]], [step["distance"]["text"]],
    [step["duration"]["text"]]; [data["status"]],
    [data["routes"][0]["legs"][0]["steps"]]. *)
Record step_json : Type := mkStep {
  html_instructions : option string;
  distance_text : option string;
  duration_text : option string
}.
Record leg_json : Type := mkLeg { steps : option (list step_json) }.
Record route_json : Type := mkRoute { legs : option (list leg_json) }.
Record directions_json : Type := mkDirections {
  directions_status : option string;
  routes : option (list route_json)
}.

(** *** [geocode_address], main.py lines 49-66 *)

Definition geocode_address (resp : response geocode_json)
    : result (option R * option R * option string) :=
  match resp with
  | RequestException => Ok (None, None, None)
  | Json data =>
      match results data with
      | Some (first :: _) =>
          lat <- key (geo_lat first) ;;
          lng <- key (geo_lng first) ;;
          formatted <- key (formatted_address first) ;;
          Ok (Some lat, Some lng, Some formatted)
      | _ => Ok (None, None, None)
      end
  end.

(** *** [get_distance_matrix], main.py lines 68-102 *)

(** [l[i] = v] on an array of fixed size. *)
Definition setitem {A : Type} (l : list A) (i : nat) (v : A)
    : result (list A) :=
  if (i <? List.length l)%nat
  then Ok (firstn i l ++ v :: skipn (S i) l)
  else Raise IndexError.

(** [matrix[i][j] = v] *)
Definition set_entry (matrix : list (list cost)) (i j : nat) (v : cost)
    : result (list (list cost)) :=
  row <- getitem matrix i ;;
  row' <- setitem row j v ;;
  setitem matrix i row'.

(** Lines 93-96; the right-hand side is evaluated before the target. *)
Definition fill_element (i j : nat) (matrix : list (list cost)) (e : element)
    : result (list (list cost)) :=
  st <- key (status e) ;;
  if String.eqb st "OK"
  then v <- key (distance_value e) ;; set_entry matrix i j (Fin v)
  else set_entry matrix i j PInf.

(** Line 92: [for j, element in enumerate(row["elements"])]. *)
Fixpoint fill_row (i j : nat) (matrix : list (list cost))
    (es : list element) : result (list (list cost)) :=
  match es with
  | [] => Ok matrix
  | e :: rest =>
      matrix' <- fill_element i j matrix e ;;
      fill_row i (S j) matrix' rest
  end.

(** Line 91: [for i, row in enumerate(data["rows"])]. *)
Fixpoint fill_rows (i : nat) (matrix : list (list cost))
    (rs : list row_json) : result (list (list cost)) :=
  match rs with
  | [] => Ok matrix
  | r :: rest =>
      es <- key (elements r) ;;
      matrix' <- fill_row i 0 matrix es ;;
      fill_rows (S i) matrix' rest
  end.

(** [np.zeros((n, n))] *)
Definition zeros (n : nat) : list (list cost) := repeat (repeat (Fin 0) n) n.

Definition get_distance_matrix (coords : list point)
    (resp : response matrix_json) : result (option (list (list cost))) :=
  match coords with
  | [] => Ok None
  | _ :: _ =>
      match resp with
      | RequestException => Ok None
      | Json data =>
          let n := List.length coords in
          let matrix := zeros n in
          rs <- key (rows data) ;;
          matrix' <- fill_rows 0 matrix rs ;;
          Ok (Some matrix')
      end
  end.

(** *** [get_route_directions], main.py lines 159-191 *)

(** Line 187: [f"{instruction} ({distance}, {duration})"]. *)
Definition format_step (instruction distance duration : string) : string :=
  (instruction ++ " (" ++ distance ++ ", " ++ duration ++ ")")%string.

(** Lines 184-187: the steps of one leg, appended in order. *)
Fixpoint append_steps (directions : list string) (ss : list step_json)
    : result (list string) :=
  match ss with
  | [] => Ok directions
  | step :: rest =>
      html <- key (html_instructions step) ;;
      let instruction := strip_tags html in
      distance <- key (distance_text step) ;;
      duration <- key (duration_text step) ;;
      append_steps (directions ++ [format_step instruction distance duration])
        rest
  end.

(** Lines 177-189: what one response adds to [directions]; a failed request
    is printed and skipped. *)
Definition append_leg (directions : list string)
    (resp : response directions_json) : result (list string) :=
  match resp with
  | RequestException => Ok directions
  | Json data =>
      st <- key (directions_status data) ;;
      if String.eqb st "OK" then
        rs <- key (routes data) ;;
        route <- getitem rs 0 ;;
        ls <- key (legs route) ;;
        leg <- getitem ls 0 ;;
        ss <- key (steps leg) ;;
        append_steps directions ss
      else Ok directions
  end.

Section Directions.

(** The directions service: the response to a request from [origin] to
    [destination]. *)
Variable directions_http : point -> point -> response directions_json.

(** Lines 166-189; [i] runs over [range(len(order) - 1)]. *)
Fixpoint for_leg (coords : list point) (order : list nat)
    (indices : list nat) (directions : list string) : result (list string) :=
  match indices with
  | [] => Ok directions
  | i :: rest =>
      a <- getitem order i ;;
      origin <- getitem coords a ;;
      b <- getitem order (i + 1) ;;
      destination <- getitem coords b ;;
      directions' <- append_leg directions (directions_http origin destination) ;;
      for_leg coords order rest directions'
  end.

(** [order] is [None] when the caller has no route yet (app.py). *)
Definition get_route_directions (coords : list point)
    (order : option (list nat)) : result (list string) :=
  match order with
  | None => Ok []
  | Some order =>
      if (List.length order <? 2)%nat then Ok []
      else for_leg coords order (seq 0 (List.length order - 1)) []
  end.

End Directions.

(** *** The endpoints, main.py lines 216-278 *)

(** What a request ends in: the response model, an [HTTPException], or an
    exception that nothing catches. *)
Inductive reply (A : Type) : Type :=
| Return (a : A)
| HTTPException (status_code : nat) (detail : string)
| Uncaught (e : exn).
Arguments Return {A} a.
Arguments HTTPException {A} status_code detail.
Arguments Uncaught {A} e.

Record RouteResponse : Type := mkRouteResponse {
  coordinates : list point;
  optimized_order : list nat;
  total_distance_km : cost;
  original_addresses : list string;
  optimized_addresses : list string
}.

(** [x or y] on an optional string: [None] and [""] are false. *)
Definition or_else (x : option string) (y : string) : string :=
  match x with
  | Some (String c s) => String c s
  | _ => y
  end.

(** [not api_key] *)
Definition missing (api_key : option string) : bool :=
  match api_key with
  | Some (String _ _) => false
  | _ => true
  end.

Section Endpoints.

(** [round(x, 2)] on a finite float. *)
Variable round2 : R -> R.

(** The geocoding service, by address, and the distance-matrix service, by
    the list of coordinates sent as origins and destinations. *)
Variable geocode_http : string -> response geocode_json.
Variable distance_http : list point -> response matrix_json.
Variable directions_http : point -> point -> response directions_json.

(** [round(total_distance / 1000, 2)]; [round(inf, 2)] is [inf]. *)
Definition to_km (total : cost) : cost :=
  match total with
  | Fin r => Fin (round2 (r / 1000))
  | PInf => PInf
  end.

(** Lines 230-234. *)
Fixpoint geocode_all (addresses : list string) (coords : list point)
    (valid_addresses : list string) : result (list point * list string) :=
  match addresses with
  | [] => Ok (coords, valid_addresses)
  | addr :: rest =>
      found <- geocode_address (geocode_http addr) ;;
      match found with
      | (Some lat, Some lng, formatted_addr) =>
          geocode_all rest (coords ++ [(lat, lng)])
            (valid_addresses ++ [or_else formatted_addr addr])
      | _ => geocode_all rest coords valid_addresses
      end
  end.

(** Line 251: [[valid_addresses[i] for i in order]]. *)
Fixpoint pick (valid_addresses : list string) (order : list nat)
    : result (list string) :=
  match order with
  | [] => Ok []
  | i :: rest =>
      a <- getitem valid_addresses i ;;
      others <- pick valid_addresses rest ;;
      Ok (a :: others)
  end.

Definition lift {A B : Type} (m : result A) (k : A -> reply B) : reply B :=
  match m with
  | Ok a => k a
  | Raise e => Uncaught e
  end.

(** [optimize_route]; [api_key] is [os.getenv("GOOGLE_API_KEY")]. *)
Definition optimize_route (api_key : option string) (addresses : list string)
    : reply RouteResponse :=
  if missing api_key
  then HTTPException 500 "Google API key not configured"
  else if (List.length addresses <? 2)%nat
  then HTTPException 400 "At least 2 addresses are required"
  else
    lift (geocode_all addresses [] []) (fun geocoded =>
    let coords := fst geocoded in
    let valid_addresses := snd geocoded in
    if (List.length coords <? 2)%nat
    then HTTPException 400 "Could not geocode enough addresses"
    else
      lift (get_distance_matrix coords (distance_http coords)) (fun found =>
      match found with
      | None => HTTPException 500 "Could not retrieve distance matrix"
      | Some matrix =>
          lift (solve_tsp_nearest_neighbor_with_right_turn_penalty
                  coords matrix (Fin 500)) (fun order =>
          lift (total_distance matrix order) (fun total =>
          lift (pick valid_addresses order) (fun optimized =>
          Return {| coordinates := coords;
                    optimized_order := order;
                    total_distance_km := to_km total;
                    original_addresses := valid_addresses;
                    optimized_addresses := optimized |})))
      end)).

(** [get_directions]: the route is optimised first, then the directions of
    its legs are fetched. *)
Definition get_directions (api_key : option string) (addresses : list string)
    : reply (list string) :=
  if missing api_key
  then HTTPException 500 "Google API key not configured"
  else
    match optimize_route api_key addresses with
    | Return route_response =>
        lift (get_route_directions directions_http
                (coordinates route_response)
                (Some (optimized_order route_response)))
             (fun directions => Return directions)
    | HTTPException status_code detail => HTTPException status_code detail
    | Uncaught e => Uncaught e
    end.

End Endpoints.

End Service.

(** ** Notions used in the further statements *)

Module Extras.
Import Geometry Route Notions.

(** Every leg of the order has a finite cost in the matrix. *)
Fixpoint legs_finite (matrix : list (list cost)) (order : list nat) : Prop :=
  match order with
  | a :: (b :: _) as rest =>
      (exists r, entry matrix a b = Ok (Fin r)) /\ legs_finite matrix rest
  | _ => True
  end.

(** The order ends with the current city and has only finite legs. *)
Definition route_so_far (matrix : list (list cost)) (s : state) : Prop :=
  (exists o, order s = o ++ [current s]) /\ legs_finite matrix (order s).

(** An [n] by [n] matrix. *)
Definition square (n : nat) (matrix : list (list cost)) : Prop :=
  length matrix = n /\ Forall (fun row => length row = n) matrix.

(** A state of the loop in which candidates remain and each of them costs
    [+inf] from the current city, penalty included. *)
Definition stuck (coords : list point) (matrix : list (list cost))
    (penalty : cost) (s : state) : Prop :=
  unvisited s <> [] /\
  forall city, In city (unvisited s) ->
    candidate_cost coords matrix penalty (prev s) (current s) city = Ok PInf.

End Extras.

(** ** Notions about marked-up text *)

Module Markup.
Import String Ascii.

(** [c] occurs in [s]. *)
Fixpoint contains (c : ascii) (s : string) : bool :=
  match s with
  | EmptyString => false
  | String d rest => if Ascii.eqb d c then true else contains c rest
  end.

(** [a] is [b] with some characters deleted. *)
Inductive subsequence : string -> string -> Prop :=
| subsequence_empty (b : string) : subsequence EmptyString b
| subsequence_skip (c : ascii) (a b : string) :
    subsequence a b -> subsequence a (String c b)
| subsequence_keep (c : ascii) (a b : string) :
    subsequence a b -> subsequence (String c a) (String c b).

(** Marked-up text as a sequence of plain text and tags. *)
Inductive piece : Type :=
| Text (t : string)
| Tag (body : string).

Definition render_piece (p : piece) : string :=
  match p with
  | Text t => t
  | Tag body => String "<" (body ++ ">")
  end.

Fixpoint render (ps : list piece) : string :=
  match ps with
  | nil => EmptyString
  | cons p rest => render_piece p ++ render rest
  end.

(** The plain text of the pieces. *)
Fixpoint text_of (ps : list piece) : string :=
  match ps with
  | nil => EmptyString
  | cons (Text t) rest => t ++ text_of rest
  | cons (Tag _) rest => text_of rest
  end.

(** Plain text holds no [<]; the body of a tag is not empty and holds
    neither [<] nor [>]. *)
Definition well_formed (p : piece) : Prop :=
  match p with
  | Text t => contains "<" t = false
  | Tag body =>
      body <> EmptyString /\
      contains "<" body = false /\ contains ">" body = false
  end.

End Markup.

(** ** Notions about the distance-matrix response *)

Module Wire.
Import Geometry Route Notions Service.
Import String.
#[local] Open Scope list_scope.

(** What an element stands for: its distance when its status is OK, [+inf]
    otherwise; nothing when a key the code reads is absent. *)
Definition reported (e : element) : option cost :=
  match status e with
  | Some st =>
      if String.eqb st "OK" then option_map Fin (distance_value e)
      else Some PInf
  | None => None
  end.

(** The element of row [i], column [j] of the response, if it is there. *)
Definition response_cell (rs : list row_json) (i j : nat) : option element :=
  match nth_error rs i with
  | Some r =>
      match elements r with
      | Some es => nth_error es j
      | None => None
      end
  | None => None
  end.

(** No key the code reads is absent. *)
Definition complete (rs : list row_json) : Prop :=
  Forall (fun r => exists es, elements r = Some es /\
                   Forall (fun e => reported e <> None) es) rs.

(** Every element of the response has a cell in an [n] by [n] matrix. *)
Definition fits (n : nat) (rs : list row_json) : Prop :=
  forall k r es, nth_error rs k = Some r -> elements r = Some es ->
    es = [] \/ ((k < n)%nat /\ (List.length es <= n)%nat).

(** Some element of the response has no cell in an [n] by [n] matrix. *)
Definition overflows (n : nat) (rs : list row_json) : Prop :=
  exists k r es, nth_error rs k = Some r /\ elements r = Some es /\
    es <> [] /\ ((n <= k)%nat \/ (n < List.length es)%nat).

(** The line of a step: its instruction without tags, then its distance
    and duration in brackets; nothing when a key the code reads is
    absent. *)
Definition described (step : step_json) : option string :=
  match html_instructions step, distance_text step, duration_text step with
  | Some html, Some distance, Some duration =>
      Some (format_step (strip_tags html) distance duration)
  | _, _, _ => None
  end.

(** A directions response with one route of one leg, and one step. *)
Definition step_left : step_json :=
  {| html_instructions := Some "Turn <b>left</b>"%string;
     distance_text := Some "0.2 km"%string;
     duration_text := Some "1 min"%string |}.
Definition response_left : directions_json :=
  {| directions_status := Some "OK"%string;
     routes := Some [ {| legs := Some [ {| steps := Some [step_left] |} ] |} ] |}.

(** An element with a route of [v] metres, and one without a route. *)
Definition found (v : R) : element :=
  {| status := Some "OK"%string; distance_value := Some v |}.
Definition not_found (st : string) : element :=
  {| status := Some st; distance_value := None |}.

(** A response for two stops: no route from the first to the second, and
    a second row that stops after its first element. *)
Definition response_apart : matrix_json :=
  {| rows := Some [ {| elements := Some [found 0; not_found "ZERO_RESULTS"%string] |};
                    {| elements := Some [not_found "NOT_FOUND"%string] |} ] |}.

(** A response with three elements in a row, for two stops. *)
Definition response_wide : matrix_json :=
  {| rows := Some [ {| elements := Some [found 0; found 5; found 7] |} ] |}.

(** An address is found when the first result of its response has its
    three keys. *)
Definition geocodes (geocode_http : string -> response geocode_json)
    (addr : string) : Prop :=
  exists lat lng formatted more,
    geocode_http addr =
    Json {| results := Some ({| geo_lat := Some lat; geo_lng := Some lng;
                               formatted_address := Some formatted |}
                             :: more) |}.

(** A geocoding service that knows two addresses, and a distance response
    for two stops ten metres apart. *)
Definition geocode_two (addr : string) : response geocode_json :=
  if String.eqb addr "A" then
    Json {| results := Some [ {| geo_lat := Some 0; geo_lng := Some 1;
                                 formatted_address := Some "A St"%string |} ] |}
  else if String.eqb addr "B" then
    Json {| results := Some [ {| geo_lat := Some 0; geo_lng := Some 0;
                                 formatted_address := Some "B St"%string |} ] |}
  else RequestException.

Definition response_pair : matrix_json :=
  {| rows := Some [ {| elements := Some [found 0; found 10] |};
                    {| elements := Some [found 10; found 0] |} ] |}.

End Wire.

Import Geometry Route Notions.

(** * Facts about the angle computation *)

Section AngleFacts.

(** The two normalisation loops unfold as the source reads. *)
Lemma while_le_add_step (a : R) :
  while_le_add a = if Rle_dec a (-180) then while_le_add (a + 360) else a.
Proof.
  funelim (while_le_add a);
    match goal with E : Rle_dec _ _ = _ |- _ => rewrite E end; reflexivity.
Qed.

Lemma while_gt_sub_step (a : R) :
  while_gt_sub a = if Rgt_dec a 180 then while_gt_sub (a - 360) else a.
Proof.
  funelim (while_gt_sub a);
    match goal with E : Rgt_dec _ _ = _ |- _ => rewrite E end; reflexivity.
Qed.

(** The first loop exits above [-180], after adding whole turns. *)
Lemma while_le_add_spec (a : R) :
  -180 < while_le_add a /\ exists k : Z, while_le_add a = a + 360 * IZR k.
Proof.
  funelim (while_le_add a).
  - destruct H as [Hlo [k Hk]]. split; [exact Hlo|].
    exists (k + 1)%Z. rewrite Hk, plus_IZR. simpl. lra.
  - split; [lra|]. exists 0%Z. simpl. lra.
Qed.

(** The second loop exits at or below [180], after subtracting whole turns,
    and never goes below [-180] when it starts above it. *)
Lemma while_gt_sub_spec (a : R) :
  while_gt_sub a <= 180 /\
  (-180 < a -> -180 < while_gt_sub a) /\
  exists k : Z, while_gt_sub a = a + 360 * IZR k.
Proof.
  funelim (while_gt_sub a).
  - destruct H as [Hhi [Hlo [k Hk]]]. split; [exact Hhi|]. split.
    + intros _. apply Hlo. lra.
    + exists (k - 1)%Z. rewrite Hk, minus_IZR. simpl. lra.
  - split; [lra|]. split; [tauto|]. exists 0%Z. simpl. lra.
Qed.

Lemma normalize_range (a : R) : -180 < normalize a <= 180.
Proof.
  unfold normalize.
  destruct (while_le_add_spec a) as [Hlo _].
  destruct (while_gt_sub_spec (while_le_add a)) as [Hhi [Hkeep _]].
  split; [apply Hkeep; exact Hlo | exact Hhi].
Qed.

Lemma normalize_turns (a : R) : exists k : Z, normalize a = a + 360 * IZR k.
Proof.
  unfold normalize.
  destruct (while_le_add_spec a) as [_ [k1 H1]].
  destruct (while_gt_sub_spec (while_le_add a)) as [_ [_ [k2 H2]]].
  exists (k1 + k2)%Z. rewrite H2, H1, plus_IZR. lra.
Qed.

(** Two angles of the half-open turn that differ by whole turns are equal. *)
Lemma half_open_turn_unique (x y : R) (k : Z) :
  -180 < x <= 180 -> -180 < y <= 180 -> x = y + 360 * IZR k -> x = y.
Proof.
  intros Hx Hy E.
  assert (Hk : k = 0%Z).
  { assert (-1 < IZR k < 1) as [H1 H2] by (split; lra).
    apply lt_IZR in H1. apply lt_IZR in H2. lia. }
  subst k. simpl in E. lra.
Qed.

Lemma normalize_unique (a r : R) (k : Z) :
  -180 < r <= 180 -> r = a + 360 * IZR k -> normalize a = r.
Proof.
  intros Hr E. destruct (normalize_turns a) as [k' Hk'].
  apply (half_open_turn_unique _ _ (k' - k)%Z);
    [apply normalize_range | exact Hr |].
  rewrite Hk', E, minus_IZR. lra.
Qed.

Lemma normalize_id (a : R) : -180 < a <= 180 -> normalize a = a.
Proof.
  intros Ha. apply (normalize_unique a a 0); [exact Ha | simpl; lra].
Qed.

Lemma calculate_angle_normalize (p1 p2 p3 : point) :
  calculate_angle p1 p2 p3 =
  normalize (degrees (atan2 (snd p3 - snd p2) (fst p3 - fst p2)
                      - atan2 (snd p1 - snd p2) (fst p1 - fst p2))).
Proof. reflexivity. Qed.

Lemma degrees_opp (x : R) : degrees (- x) = - degrees x.
Proof. unfold degrees. lra. Qed.

Lemma normalize_opp (a : R) :
  (normalize a <> 180 -> normalize (- a) = - normalize a) /\
  (normalize a = 180 -> normalize (- a) = 180).
Proof.
  pose proof (normalize_range a) as Hr.
  destruct (normalize_turns a) as [k Hk]. split; intros H.
  - apply (normalize_unique _ _ (- k)%Z); [lra|].
    rewrite Hk, opp_IZR. lra.
  - apply (normalize_unique _ _ (1 - k)%Z); [lra|].
    rewrite minus_IZR. simpl. lra.
Qed.

End AngleFacts.

(** * Facts about costs and the result monad *)

Section CostFacts.

Lemma cost_ltb_fin (x y : R) : cost_ltb (Fin x) (Fin y) = true <-> x < y.
Proof.
  simpl. destruct (Rlt_dec x y); split; intros; try discriminate; tauto.
Qed.

Lemma cost_ltb_inf_l (a : cost) : cost_ltb PInf a = false.
Proof. reflexivity. Qed.

Lemma cost_ltb_irrefl (a : cost) : cost_ltb a a = false.
Proof.
  destruct a as [x|]; simpl; [|reflexivity].
  destruct (Rlt_dec x x); [lra | reflexivity].
Qed.

Lemma cost_ltb_trans (a b c : cost) :
  cost_ltb a b = true -> cost_ltb b c = true -> cost_ltb a c = true.
Proof.
  destruct a as [x|], b as [y|], c as [z|]; simpl; try discriminate; auto.
  destruct (Rlt_dec x y), (Rlt_dec y z), (Rlt_dec x z);
    try discriminate; auto; lra.
Qed.

(** [m < a] and not [x < a] give [m < x]: the order on costs is total. *)
Lemma cost_ltb_below (m x a : cost) :
  cost_ltb m a = true -> cost_ltb x a = false -> cost_ltb m x = true.
Proof.
  destruct m as [u|], x as [v|], a as [w|]; simpl; try discriminate; auto.
  destruct (Rlt_dec u w), (Rlt_dec v w), (Rlt_dec u v);
    try discriminate; auto; lra.
Qed.

Lemma cost_ltb_asym (a b : cost) :
  cost_ltb a b = true -> cost_ltb b a = false.
Proof.
  destruct a as [x|], b as [y|]; simpl; try discriminate; auto.
  destruct (Rlt_dec x y), (Rlt_dec y x); try discriminate; auto; lra.
Qed.

Lemma cost_add_inf_l (a : cost) : cost_add PInf a = PInf.
Proof. reflexivity. Qed.

Lemma cost_add_inf_r (a : cost) : cost_add a PInf = PInf.
Proof. destruct a; reflexivity. Qed.

Lemma cost_add_0_l (a : cost) : cost_add (Fin 0) a = a.
Proof. destruct a as [x|]; simpl; [f_equal; lra | reflexivity]. Qed.

Lemma cost_add_assoc (a b c : cost) :
  cost_add (cost_add a b) c = cost_add a (cost_add b c).
Proof.
  destruct a, b, c; simpl; try reflexivity. f_equal. lra.
Qed.

Lemma bind_ok {A B : Type} (m : result A) (k : A -> result B) (b : B) :
  bind m k = Ok b -> exists a, m = Ok a /\ k a = Ok b.
Proof. destruct m as [a|e]; simpl; [eauto | discriminate]. Qed.

Lemma getitem_ok_lt {A : Type} (l : list A) (i : nat) (a : A) :
  getitem l i = Ok a -> (i < length l)%nat.
Proof.
  unfold getitem. destruct (nth_error l i) eqn:E; [|discriminate].
  intros _. apply nth_error_Some. congruence.
Qed.

Lemma getitem_lt_ok {A : Type} (l : list A) (i : nat) :
  (i < length l)%nat -> exists a, getitem l i = Ok a.
Proof.
  intros H. unfold getitem. destruct (nth_error l i) eqn:E; [eauto|].
  apply nth_error_None in E. lia.
Qed.

End CostFacts.

(** * Facts about the greedy loop *)

Section LoopFacts.

Variable coords : list point.
Variable matrix : list (list cost).
Variable penalty : cost.

#[local] Abbreviation cc := (candidate_cost coords matrix penalty).
#[local] Abbreviation scan := (for_city coords matrix penalty).
#[local] Abbreviation body := (loop_body coords matrix penalty).
#[local] Abbreviation while := (while_unvisited coords matrix penalty).
#[local] Abbreviation iter := (iterate_body coords matrix penalty).

(** The [while] loop unfolds as the source reads. *)
Lemma while_unvisited_step (s : state) :
  while s =
  match unvisited s with
  | [] => Ok s
  | _ :: _ => bind (body s) while
  end.
Proof.
  funelim (while_unvisited coords matrix penalty s);
    try match goal with E : unvisited _ = _ |- _ => rewrite E end;
    try match goal with E : loop_body _ _ _ _ = _ |- _ => rewrite E end;
    reflexivity.
Qed.

(** A scan that sees only [+inf] leaves the accumulator untouched. *)
Lemma for_city_all_inf (prv : option nat) (cur : nat) (cities : list nat)
    (acc : cost * option nat) :
  (forall city, In city cities -> cc prv cur city = Ok PInf) ->
  scan prv cur cities acc = Ok acc.
Proof.
  induction cities as [|city rest IH]; intros H; simpl; [reflexivity|].
  rewrite (H city (or_introl eq_refl)). simpl.
  apply IH. intros c Hc. apply H. right. exact Hc.
Qed.

(** The body cannot run on an empty candidate set. *)
Lemma loop_body_empty (s : state) :
  unvisited s = [] -> body s = Raise KeyError.
Proof. intros E. unfold loop_body. rewrite E. reflexivity. Qed.

Lemma loop_body_all_inf (s : state) :
  (forall city, In city (unvisited s) ->
     cc (prev s) (current s) city = Ok PInf) ->
  body s = Raise KeyError.
Proof.
  intros H. unfold loop_body. rewrite for_city_all_inf by exact H.
  reflexivity.
Qed.

(** Iterations that succeeded are iterations the [while] loop runs. *)
Lemma while_iterate (k : nat) (s s' : state) :
  iter k s = Ok s' -> while s = while s'.
Proof.
  revert s. induction k as [|k IH]; intros s H; simpl in H.
  - congruence.
  - apply bind_ok in H as [s1 [H1 H2]].
    rewrite while_unvisited_step.
    destruct (unvisited s) eqn:E.
    + rewrite loop_body_empty in H1 by exact E. discriminate.
    + rewrite H1. simpl. apply IH. exact H2.
Qed.

End LoopFacts.

(** * The turning angle *)

Section AngleClaims.

Lemma atan2_north : atan2 1 0 = PI / 2.
Proof.
  unfold atan2.
  destruct (Rlt_dec 0 0); [lra|]. destruct (Rlt_dec 0 1); [reflexivity | lra].
Qed.

Lemma atan2_east : atan2 0 1 = 0.
Proof.
  unfold atan2. destruct (Rlt_dec 0 1); [|lra].
  replace (0 / 1) with 0 by lra. apply atan_0.
Qed.

Lemma atan2_west : atan2 0 (-1) = PI.
Proof.
  unfold atan2. destruct (Rlt_dec 0 (-1)); [lra|].
  destruct (Rlt_dec (-1) 0); [|lra]. destruct (Rle_dec 0 0); [|lra].
  replace (0 / -1) with 0 by lra. rewrite atan_0. lra.
Qed.

Lemma degrees_PI : degrees PI = 180.
Proof. unfold degrees. field. apply PI_neq0. Qed.

Lemma degrees_half_PI : degrees (PI / 2) = 90.
Proof. unfold degrees. field. apply PI_neq0. Qed.

(** The specification's right-angle example: at B = (0,0), coming from
    A = (0,1) and leaving for C = (1,0), the angle is -90 degrees. *)
Lemma calculate_angle_right_angle :
  calculate_angle (0, 1) (0, 0) (1, 0) = -90.
Proof.
  rewrite calculate_angle_normalize. simpl.
  replace (0 - 0) with 0 by lra. replace (1 - 0) with 1 by lra.
  rewrite atan2_east, atan2_north.
  replace (0 - PI / 2) with (- (PI / 2)) by lra.
  rewrite degrees_opp, degrees_half_PI. apply normalize_id. lra.
Qed.

(** Leaving straight back where one came from is a turn of 180 degrees. *)
Lemma calculate_angle_straight :
  calculate_angle (1, 0) (0, 0) (-1, 0) = 180.
Proof.
  rewrite calculate_angle_normalize. simpl.
  replace (0 - 0) with 0 by lra. replace (1 - 0) with 1 by lra.
  replace (-1 - 0) with (-1) by lra.
  rewrite atan2_east, atan2_west.
  replace (PI - 0) with PI by lra.
  rewrite degrees_PI. apply normalize_id. lra.
Qed.

Lemma right_turn_true (a : R) : right_turn a = true <-> -135 < a < -45.
Proof.
  unfold right_turn.
  destruct (Rlt_dec (-135) a), (Rlt_dec a (-45)); split; intros H;
    try discriminate; try reflexivity; lra.
Qed.

Lemma right_turn_false (a : R) : right_turn a = false <-> ~ (-135 < a < -45).
Proof.
  unfold right_turn.
  destruct (Rlt_dec (-135) a), (Rlt_dec a (-45)); split; intros H;
    try discriminate; try reflexivity; try lra; exfalso; apply H; lra.
Qed.

(** C6: for every triple of points, calculate_angle returns an angle in the
    half-open interval (-180, 180]: strictly above -180 and at most 180. *)
Theorem calculate_angle_range (p1 p2 p3 : point) :
  -180 < calculate_angle p1 p2 p3 <= 180.
Proof. rewrite calculate_angle_normalize. apply normalize_range. Qed.

(** C10: swapping the outer points negates the angle unless it is 180, in
    which case the swapped angle is 180 too; hence a right turn
    (strictly between -135 and -45) swaps to an angle strictly between 45
    and 135, which is not a right turn, and conversely. *)
Theorem calculate_angle_swap (p1 p2 p3 : point) :
  (calculate_angle p1 p2 p3 <> 180 ->
   calculate_angle p3 p2 p1 = - calculate_angle p1 p2 p3) /\
  (calculate_angle p1 p2 p3 = 180 -> calculate_angle p3 p2 p1 = 180) /\
  (right_turn (calculate_angle p1 p2 p3) = true ->
   right_turn (calculate_angle p3 p2 p1) = false) /\
  (45 < calculate_angle p1 p2 p3 < 135 ->
   right_turn (calculate_angle p3 p2 p1) = true).
Proof.
  rewrite !calculate_angle_normalize.
  set (a1 := atan2 (snd p1 - snd p2) (fst p1 - fst p2)).
  set (a2 := atan2 (snd p3 - snd p2) (fst p3 - fst p2)).
  replace (a1 - a2) with (- (a2 - a1)) by lra. rewrite degrees_opp.
  destruct (normalize_opp (degrees (a2 - a1))) as [Hneg Hflat].
  repeat split.
  - exact Hneg.
  - exact Hflat.
  - intros H. apply right_turn_true in H. apply right_turn_false.
    rewrite Hneg by lra. lra.
  - intros H. apply right_turn_true. rewrite Hneg by lra. lra.
Qed.

Lemma calculate_angle_swap_witness :
  calculate_angle (1, 0) (0, 0) (0, 1) = - calculate_angle (0, 1) (0, 0) (1, 0)
  /\ calculate_angle (-1, 0) (0, 0) (1, 0) = 180
  /\ right_turn (calculate_angle (1, 0) (0, 0) (0, 1)) = false.
Proof.
  split; [|split].
  - apply (calculate_angle_swap (0, 1) (0, 0) (1, 0)).
    rewrite calculate_angle_right_angle. lra.
  - apply (calculate_angle_swap (1, 0) (0, 0) (-1, 0)).
    exact calculate_angle_straight.
  - apply (calculate_angle_swap (0, 1) (0, 0) (1, 0)).
    rewrite calculate_angle_right_angle. apply right_turn_true. lra.
Defined.

End AngleClaims.


(** * The total distance *)

Section TotalDistance.

Variable matrix : list (list cost).

Lemma leg_cons (a : nat) (order : list nat) (i : nat) :
  leg matrix (a :: order) (S i) = leg matrix order i.
Proof. reflexivity. Qed.

Lemma legs_shift (a : nat) (order : list nat) (k : nat) :
  map (leg matrix (a :: order)) (seq 1 k) = map (leg matrix order) (seq 0 k).
Proof.
  rewrite <- seq_shift, map_map. apply map_ext. intros i. apply leg_cons.
Qed.

Lemma sum_from_start (start : cost) (terms : list (result cost)) :
  sum_from start terms =
  bind (sum_from (Fin 0) terms) (fun r => Ok (cost_add start r)).
Proof.
  revert start.
  induction terms as [|t rest IH]; intros start; cbn [sum_from bind].
  - destruct start as [x|]; simpl; [f_equal; f_equal; lra | reflexivity].
  - destruct t as [x|e]; cbn [bind]; [|reflexivity].
    rewrite (IH (cost_add start x)), (IH (cost_add (Fin 0) x)).
    destruct (sum_from (Fin 0) rest) as [r|e]; cbn [bind]; [|reflexivity].
    rewrite cost_add_0_l, cost_add_assoc. reflexivity.
Qed.

Lemma total_distance_pairs (order : list nat) :
  total_distance matrix order = totalCost matrix order.
Proof.
  induction order as [|a [|b rest] IH]; try reflexivity.
  unfold total_distance in *.
  change (length (a :: b :: rest) - 1)%nat with (S (length rest)).
  change (length (b :: rest) - 1)%nat with (length rest - 0)%nat in IH.
  rewrite Nat.sub_0_r in IH.
  cbn [seq map sum_from]. rewrite legs_shift.
  unfold leg at 1. cbn [getitem nth_error Nat.add bind].
  change (totalCost matrix (a :: b :: rest)) with
    (bind (getitem matrix a) (fun row =>
     bind (getitem row b) (fun x =>
     bind (totalCost matrix (b :: rest)) (fun r => Ok (cost_add x r))))).
  rewrite <- IH.
  destruct (getitem matrix a) as [row|e]; cbn [bind]; [|reflexivity].
  destruct (getitem row b) as [x|e]; cbn [bind]; [|reflexivity].
  rewrite sum_from_start, cost_add_0_l. reflexivity.
Qed.

End TotalDistance.

(** C8: the total distance is the sum of matrix[order[i]][order[i+1]] over
    consecutive stops, it is 0 for an order with fewer than two stops, and
    it is 25 for the matrix [[0,10,20],[10,0,15],[20,15,0]] and the order
    [0,1,2]. *)
Theorem total_distance_sum (matrix : list (list cost)) (order : list nat) :
  total_distance matrix order = totalCost matrix order /\
  ((length order < 2)%nat -> total_distance matrix order = Ok (Fin 0)) /\
  total_distance
    [[Fin 0; Fin 10; Fin 20]; [Fin 10; Fin 0; Fin 15]; [Fin 20; Fin 15; Fin 0]]
    [0; 1; 2]%nat = Ok (Fin 25).
Proof.
  split; [apply total_distance_pairs|]. split.
  - intros H. destruct order as [|a [|b rest]]; try reflexivity.
    simpl in H. lia.
  - cbv [total_distance length Nat.sub seq map leg getitem nth_error bind
         Nat.add sum_from cost_add].
    f_equal. f_equal. lra.
Qed.

Lemma total_distance_sum_witness :
  total_distance [[Fin 0]] [0%nat] = Ok (Fin 0).
Proof.
  apply (total_distance_sum [[Fin 0]] [0%nat]). simpl. lia.
Defined.

(** * The greedy order *)

Section BuildOrder.

(** C3 (as the code behaves): with an empty matrix the loop is skipped and
    the order holds the start index alone, whatever the coordinates and the
    penalty. *)
Theorem solve_empty_matrix (coords : list point) (penalty : cost) :
  solve_tsp_nearest_neighbor_with_right_turn_penalty coords [] penalty
  = Ok [0%nat].
Proof.
  unfold solve_tsp_nearest_neighbor_with_right_turn_penalty.
  rewrite while_unvisited_step. cbn [initial_state length Nat.sub seq
    unvisited bind order].
  reflexivity.
Qed.

(** C3 as stated fails: an empty input does not give an empty order. *)
Lemma solve_empty_matrix_not_empty :
  solve_tsp_nearest_neighbor_with_right_turn_penalty [] [] (Fin 500)
  <> Ok [].
Proof. change (Ok [0%nat] <> @Ok (list nat) []). discriminate. Qed.

End BuildOrder.

(** * Unreachable stops *)

Section Unreachable.

Variable coords : list point.
Variable matrix : list (list cost).
Variable penalty : cost.

#[local] Abbreviation cc := (candidate_cost coords matrix penalty).
#[local] Abbreviation body := (loop_body coords matrix penalty).
#[local] Abbreviation while := (while_unvisited coords matrix penalty).
#[local] Abbreviation iter := (iterate_body coords matrix penalty).
#[local] Abbreviation solve :=
  (solve_tsp_nearest_neighbor_with_right_turn_penalty coords matrix penalty).

Lemma getitem_cases {A : Type} (l : list A) (i : nat) :
  (exists a, getitem l i = Ok a) \/ getitem l i = Raise IndexError.
Proof. unfold getitem. destruct (nth_error l i); eauto. Qed.

(** An unreachable candidate stays unreachable with the penalty. *)
Lemma candidate_cost_unreachable (prv : option nat) (cur city : nat)
    (row : list cost) :
  getitem matrix cur = Ok row -> getitem row city = Ok PInf ->
  cc prv cur city = Ok PInf \/ cc prv cur city = Raise IndexError.
Proof.
  intros Hrow Hc. unfold candidate_cost. rewrite Hrow. cbn [bind].
  rewrite Hc. cbn [bind]. destruct prv as [p|]; [|left; reflexivity].
  destruct (getitem_cases coords p) as [[p1 ->] | ->]; cbn [bind]; auto.
  destruct (getitem_cases coords cur) as [[p2 ->] | ->]; cbn [bind]; auto.
  destruct (getitem_cases coords city) as [[p3 ->] | ->]; cbn [bind]; auto.
  destruct (right_turn _); auto.
Qed.

Lemma while_all_inf (s : state) :
  unvisited s <> [] ->
  (forall city, In city (unvisited s) ->
     cc (prev s) (current s) city = Ok PInf) ->
  while s = Raise KeyError.
Proof.
  intros Hne Hinf. rewrite while_unvisited_step.
  destruct (unvisited s) eqn:E; [congruence|].
  rewrite loop_body_all_inf; [reflexivity|].
  rewrite E. exact Hinf.
Qed.

Lemma solve_while (s : state) (k : nat) :
  iter k (initial_state matrix) = Ok s ->
  solve = bind (while s) (fun s' => Ok (order s')).
Proof.
  intros H. unfold solve_tsp_nearest_neighbor_with_right_turn_penalty.
  rewrite (while_iterate _ _ _ _ _ _ H). reflexivity.
Qed.

End Unreachable.

(** C1 (what the code does instead): whenever the loop reaches a step at
    which every remaining candidate costs +inf from the current city, also
    with the penalty, no candidate is selected and the call ends in the
    KeyError of unvisited.remove(None); no order is returned. *)
Theorem solve_all_unreachable_raises (coords : list point)
    (matrix : list (list cost)) (penalty : cost) (k : nat) (s : state) :
  iterate_body coords matrix penalty k (initial_state matrix) = Ok s ->
  unvisited s <> [] ->
  (forall city, In city (unvisited s) ->
     candidate_cost coords matrix penalty (prev s) (current s) city
     = Ok PInf) ->
  solve_tsp_nearest_neighbor_with_right_turn_penalty coords matrix penalty
  = Raise KeyError.
Proof.
  intros Hreach Hne Hinf.
  rewrite (solve_while _ _ _ _ _ Hreach).
  rewrite while_all_inf by assumption. reflexivity.
Qed.

Lemma solve_all_unreachable_raises_witness :
  solve_tsp_nearest_neighbor_with_right_turn_penalty
    coords_apart matrix_apart (Fin 500) = Raise KeyError.
Proof.
  apply (solve_all_unreachable_raises coords_apart matrix_apart (Fin 500)
           0 (initial_state matrix_apart)).
  - reflexivity.
  - discriminate.
  - intros city [<-|[]]. reflexivity.
Defined.

(** C2 (failing input): three coordinates and a 3x3 matrix whose last stop
    is unreachable are valid inputs, yet the call raises KeyError in its
    second step and returns no order at all. *)
Theorem solve_island_raises :
  length coords_island = 3%nat /\
  length matrix_island = 3%nat /\
  Forall (fun row => length row = 3%nat) matrix_island /\
  solve_tsp_nearest_neighbor_with_right_turn_penalty
    coords_island matrix_island (Fin 500) = Raise KeyError /\
  forall order,
    solve_tsp_nearest_neighbor_with_right_turn_penalty
      coords_island matrix_island (Fin 500) <> Ok order.
Proof.
  assert (E : solve_tsp_nearest_neighbor_with_right_turn_penalty
                coords_island matrix_island (Fin 500) = Raise KeyError).
  { rewrite (solve_while coords_island matrix_island (Fin 500)
               {| order := [0; 1]%nat; unvisited := [2%nat];
                  current := 1%nat; prev := Some 0%nat |} 1)
      by reflexivity.
    rewrite while_all_inf; [reflexivity | discriminate |].
    intros city [<-|[]]. cbn. destruct (right_turn _); reflexivity. }
  repeat split; try reflexivity.
  - repeat constructor.
  - exact E.
  - intros order. rewrite E. discriminate.
Qed.

(** C7 (failing input): with three stops and no route between them the
    first iteration already raises, so the loop does not run its two
    iterations. *)
Theorem loop_scattered_raises :
  loop_body coords_island matrix_scattered (Fin 500)
    (initial_state matrix_scattered) = Raise KeyError /\
  iterate_body coords_island matrix_scattered (Fin 500) (3 - 1)
    (initial_state matrix_scattered) = Raise KeyError /\
  solve_tsp_nearest_neighbor_with_right_turn_penalty
    coords_island matrix_scattered (Fin 500) = Raise KeyError.
Proof. repeat split; reflexivity. Qed.

(** * One greedy step *)

Section Step.

Variable coords : list point.
Variable matrix : list (list cost).
Variable penalty : cost.

#[local] Abbreviation cc := (candidate_cost coords matrix penalty).
#[local] Abbreviation scan := (for_city coords matrix penalty).
#[local] Abbreviation body := (loop_body coords matrix penalty).

(** What a successful iteration did. *)
Lemma loop_body_ok (s s' : state) :
  body s = Ok s' ->
  exists m c,
    scan (prev s) (current s) (unvisited s) (PInf, None) = Ok (m, Some c) /\
    In c (unvisited s) /\
    s' = {| order := order s ++ [c];
            unvisited := remove Nat.eq_dec c (unvisited s);
            current := c;
            prev := Some (current s) |}.
Proof.
  unfold loop_body. intros H.
  destruct (scan _ _ _ _) as [[m [c|]]|e]; cbn in H; try discriminate.
  destruct (in_dec Nat.eq_dec c (unvisited s)) as [Hin|]; cbn in H;
    try discriminate.
  exists m, c. repeat split; [exact Hin | congruence].
Qed.

Lemma loop_body_shrinks (s s' : state) :
  body s = Ok s' -> (length (unvisited s') < length (unvisited s))%nat.
Proof.
  intros H. apply loop_body_ok in H as [m [c [_ [Hin ->]]]]. simpl.
  apply remove_length_lt. exact Hin.
Qed.

(** The scan keeps the first candidate that attains the least cost: either
    nothing beat the accumulator, or the winner [c] is strictly cheaper than
    every candidate before it and no candidate after it is cheaper. *)
Lemma for_city_first_min (prv : option nat) (cur : nat) (cities : list nat)
    (acc acc' : cost * option nat) :
  scan prv cur cities acc = Ok acc' ->
  (acc' = acc /\
   forall x, In x cities ->
     exists cx, cc prv cur x = Ok cx /\ cost_ltb cx (fst acc) = false) \/
  (exists l1 c l2 m,
     cities = l1 ++ c :: l2 /\ acc' = (m, Some c) /\
     cc prv cur c = Ok m /\ cost_ltb m (fst acc) = true /\
     (forall x, In x l1 ->
        exists cx, cc prv cur x = Ok cx /\ cost_ltb m cx = true) /\
     (forall x, In x l2 ->
        exists cx, cc prv cur x = Ok cx /\ cost_ltb cx m = false)).
Proof.
  revert acc. induction cities as [|city rest IH]; intros acc H.
  - left. split; [simpl in H; congruence | intros x []].
  - cbn [for_city] in H.
    destruct (cc prv cur city) as [x|e] eqn:Ec; cbn [bind] in H;
      [|discriminate].
    destruct (cost_ltb x (fst acc)) eqn:Elt; apply IH in H;
      destruct H as [[-> Hrest] | (l1 & c & l2 & m & -> & -> & Hc & Hlt & H1 & H2)].
    + right. exists [], city, rest, x. repeat split; auto.
      intros y [].
    + right. exists (city :: l1), c, l2, m. simpl in Hlt.
      repeat split; auto.
      * eapply cost_ltb_trans; eassumption.
      * intros y [<-|Hy]; [exists x; auto | auto].
    + left. split; [reflexivity|].
      intros y [<-|Hy]; [exists x; auto | auto].
    + right. exists (city :: l1), c, l2, m. repeat split; auto.
      intros y [<-|Hy]; [|auto].
      exists x. split; [exact Ec|]. eapply cost_ltb_below; eassumption.
Qed.


End Step.

(** * Determinism and the tie-break *)

(** C4: two calls with identical inputs return the identical result, and
    in every step that selects a city the winner is the first candidate, in
    the order the candidates are scanned, that attains the least penalised
    cost: every candidate scanned before it is strictly costlier and no
    candidate scanned after it is cheaper. *)
Theorem solve_deterministic_first_min (coords : list point)
    (matrix : list (list cost)) (penalty : cost) :
  (forall coords' matrix' penalty',
     coords' = coords -> matrix' = matrix -> penalty' = penalty ->
     solve_tsp_nearest_neighbor_with_right_turn_penalty coords' matrix' penalty'
     = solve_tsp_nearest_neighbor_with_right_turn_penalty coords matrix penalty)
  /\
  (forall s s',
     loop_body coords matrix penalty s = Ok s' ->
     exists l1 c l2 m,
       unvisited s = l1 ++ c :: l2 /\
       order s' = order s ++ [c] /\ current s' = c /\
       candidate_cost coords matrix penalty (prev s) (current s) c = Ok m /\
       (forall x, In x l1 ->
          exists cx,
            candidate_cost coords matrix penalty (prev s) (current s) x = Ok cx
            /\ cost_ltb m cx = true) /\
       (forall x, In x l2 ->
          exists cx,
            candidate_cost coords matrix penalty (prev s) (current s) x = Ok cx
            /\ cost_ltb cx m = false)).
Proof.
  split.
  - intros coords' matrix' penalty' -> -> ->. reflexivity.
  - intros s s' H. apply loop_body_ok in H as [m [c [Hscan [_ ->]]]].
    apply for_city_first_min in Hscan
      as [[E _] | (l1 & c' & l2 & m' & Hsplit & E & Hc & _ & H1 & H2)].
    + discriminate.
    + injection E as <- <-. exists l1, c, l2, m. repeat split; auto.
Qed.

Lemma loop_body_tie :
  loop_body coords_corner matrix_tie (Fin 500) (initial_state matrix_tie)
  = Ok {| order := [0; 1]%nat; unvisited := [2%nat];
          current := 1%nat; prev := Some 0%nat |}.
Proof.
  unfold loop_body. cbn [initial_state matrix_tie length Nat.sub seq prev
    current unvisited for_city candidate_cost getitem nth_error bind fst].
  cbn [cost_ltb]. destruct (Rlt_dec 5 5); [lra|]. reflexivity.
Qed.

Lemma solve_deterministic_first_min_witness :
  exists l1 c l2 m,
    unvisited (initial_state matrix_tie) = l1 ++ c :: l2 /\
    c = 1%nat /\
    candidate_cost coords_corner matrix_tie (Fin 500) None 0 c = Ok m /\
    forall x, In x l2 ->
      exists cx,
        candidate_cost coords_corner matrix_tie (Fin 500) None 0 x = Ok cx /\
        cost_ltb cx m = false.
Proof.
  destruct (solve_deterministic_first_min coords_corner matrix_tie (Fin 500))
    as [_ Hstep].
  destruct (Hstep _ _ loop_body_tie)
    as (l1 & c & l2 & m & Hsplit & _ & Hcur & Hc & _ & Hafter).
  exists l1, c, l2, m. repeat split; auto.
Defined.

(** * The diagonal is never read *)

Section Diagonal.

Variable coords : list point.
Variables m1 m2 : list (list cost).
Variable penalty : cost.
Hypothesis agree : agree_off_diagonal m1 m2.

Lemma candidate_cost_entry (m : list (list cost)) (prv : option nat)
    (cur city : nat) :
  candidate_cost coords m penalty prv cur city =
  bind (entry m cur city) (fun cost =>
    match prv with
    | Some p =>
        bind (getitem coords p) (fun p1 =>
        bind (getitem coords cur) (fun p2 =>
        bind (getitem coords city) (fun p3 =>
          if right_turn (calculate_angle p1 p2 p3)
          then Ok (cost_add cost penalty) else Ok cost)))
    | None => Ok cost
    end).
Proof.
  unfold candidate_cost, entry.
  destruct (getitem m cur) as [row|e]; reflexivity.
Qed.

Lemma candidate_cost_off_diagonal (prv : option nat) (cur city : nat) :
  cur <> city ->
  candidate_cost coords m1 penalty prv cur city
  = candidate_cost coords m2 penalty prv cur city.
Proof.
  intros H. rewrite !candidate_cost_entry.
  destruct agree as [_ E]. rewrite (E cur city H). reflexivity.
Qed.

Lemma for_city_off_diagonal (prv : option nat) (cur : nat)
    (cities : list nat) (acc : cost * option nat) :
  ~ In cur cities ->
  for_city coords m1 penalty prv cur cities acc
  = for_city coords m2 penalty prv cur cities acc.
Proof.
  revert acc. induction cities as [|city rest IH]; intros acc H;
    [reflexivity|].
  cbn [for_city].
  rewrite candidate_cost_off_diagonal
    by (intros ->; apply H; left; reflexivity).
  assert (Hrest : ~ In cur rest) by (intros Hin; apply H; right; exact Hin).
  destruct (candidate_cost coords m2 penalty prv cur city) as [x|e];
    cbn [bind]; [|reflexivity].
  destruct (cost_ltb x (fst acc)); apply IH; exact Hrest.
Qed.

Lemma loop_body_off_diagonal (s : state) :
  ~ In (current s) (unvisited s) ->
  loop_body coords m1 penalty s = loop_body coords m2 penalty s.
Proof.
  intros H. unfold loop_body.
  rewrite for_city_off_diagonal by exact H. reflexivity.
Qed.

(** The current city is never a candidate. *)
Lemma current_not_candidate (m : list (list cost)) (s s' : state) :
  loop_body coords m penalty s = Ok s' -> ~ In (current s') (unvisited s').
Proof.
  intros H. apply loop_body_ok in H as [x [c [_ [_ ->]]]]. simpl.
  apply remove_In.
Qed.

Lemma while_off_diagonal (s : state) :
  ~ In (current s) (unvisited s) ->
  while_unvisited coords m1 penalty s = while_unvisited coords m2 penalty s.
Proof.
  remember (length (unvisited s)) as k eqn:Ek.
  revert s Ek. induction k as [k IH] using lt_wf_ind. intros s Ek H.
  rewrite !while_unvisited_step.
  pose proof (loop_body_off_diagonal s H) as Hbody.
  destruct (unvisited s) as [|c rest] eqn:E; [reflexivity|].
  rewrite Hbody.
  destruct (loop_body coords m2 penalty s) as [s'|e] eqn:Eb; cbn [bind];
    [|reflexivity].
  apply (IH (length (unvisited s'))); [|reflexivity|].
  - subst k. rewrite <- E. eapply loop_body_shrinks. exact Eb.
  - eapply current_not_candidate. exact Eb.
Qed.

End Diagonal.

(** C9: two matrices that agree everywhere off the diagonal give the same
    result, whatever their diagonal entries are. *)
Theorem solve_ignores_diagonal (coords : list point)
    (m1 m2 : list (list cost)) (penalty : cost) :
  agree_off_diagonal m1 m2 ->
  solve_tsp_nearest_neighbor_with_right_turn_penalty coords m1 penalty
  = solve_tsp_nearest_neighbor_with_right_turn_penalty coords m2 penalty.
Proof.
  intros H. unfold solve_tsp_nearest_neighbor_with_right_turn_penalty.
  assert (E : initial_state m1 = initial_state m2)
    by (unfold initial_state; destruct H as [-> _]; reflexivity).
  rewrite E, (while_off_diagonal coords m1 m2 penalty H); [reflexivity|].
  unfold initial_state. cbn [current unvisited].
  rewrite in_seq. lia.
Qed.

Lemma corner_agree_off_diagonal :
  agree_off_diagonal matrix_corner matrix_corner_diag.
Proof.
  split; [reflexivity|]. intros i j H.
  destruct i as [|[|[|i]]], j as [|[|[|j]]];
    try reflexivity; try (exfalso; apply H; reflexivity).
Qed.

Lemma solve_ignores_diagonal_witness :
  solve_tsp_nearest_neighbor_with_right_turn_penalty
    coords_corner matrix_corner (Fin 500)
  = solve_tsp_nearest_neighbor_with_right_turn_penalty
    coords_corner matrix_corner_diag (Fin 500).
Proof.
  apply (solve_ignores_diagonal coords_corner matrix_corner
           matrix_corner_diag (Fin 500)).
  exact corner_agree_off_diagonal.
Defined.

(** * Reachable stops: the loop on finite costs *)

Section Reachable.

Variable coords : list point.
Variable matrix : list (list cost).
Variable penalty : R.

#[local] Abbreviation n := (length matrix).
#[local] Abbreviation cc := (candidate_cost coords matrix (Fin penalty)).
#[local] Abbreviation scan := (for_city coords matrix (Fin penalty)).
#[local] Abbreviation body := (loop_body coords matrix (Fin penalty)).
#[local] Abbreviation while := (while_unvisited coords matrix (Fin penalty)).
#[local] Abbreviation iter := (iterate_body coords matrix (Fin penalty)).

(** There is a coordinate pair for every row, and every pair of distinct
    stops has a finite cost. *)
Hypothesis coords_size : length coords = n.
Hypothesis reachable :
  forall i j, (i < n)%nat -> (j < n)%nat -> i <> j ->
    exists r, entry matrix i j = Ok (Fin r).

Lemma invariant_candidate (s : state) (city : nat) :
  loop_invariant matrix s -> In city (unvisited s) -> (city < n)%nat.
Proof.
  intros Hinv Hin.
  assert (H : In city (seq 0 n)).
  { eapply Permutation_in; [apply (inv_perm _ _ Hinv)|].
    apply in_or_app. right. exact Hin. }
  apply in_seq in H. lia.
Qed.

Lemma invariant_nodup (s : state) :
  loop_invariant matrix s -> NoDup (order s ++ unvisited s).
Proof.
  intros Hinv. eapply Permutation_NoDup.
  - apply Permutation_sym. apply (inv_perm _ _ Hinv).
  - apply seq_NoDup.
Qed.

Lemma candidate_cost_finite (s : state) (city : nat) :
  loop_invariant matrix s -> In city (unvisited s) ->
  exists r, cc (prev s) (current s) city = Ok (Fin r).
Proof.
  intros Hinv Hin.
  pose proof (invariant_candidate s city Hinv Hin) as Hcity.
  assert (Hne : current s <> city)
    by (intros E; apply (inv_fresh _ _ Hinv); rewrite E; exact Hin).
  destruct (reachable _ _ (inv_current _ _ Hinv) Hcity Hne) as [r Hr].
  rewrite candidate_cost_entry, Hr. cbn [bind].
  destruct (prev s) as [p|] eqn:Ep; [|eauto].
  destruct (getitem_lt_ok coords p) as [p1 ->];
    [rewrite coords_size; apply (inv_prev _ _ Hinv); exact Ep|].
  destruct (getitem_lt_ok coords (current s)) as [p2 ->];
    [rewrite coords_size; apply (inv_current _ _ Hinv)|].
  destruct (getitem_lt_ok coords city) as [p3 ->];
    [rewrite coords_size; exact Hcity|].
  cbn [bind]. destruct (right_turn _); cbn [cost_add]; eauto.
Qed.

Lemma for_city_total (prv : option nat) (cur : nat) (cities : list nat)
    (acc : cost * option nat) :
  (forall x, In x cities -> exists cx, cc prv cur x = Ok cx) ->
  exists acc', scan prv cur cities acc = Ok acc'.
Proof.
  revert acc. induction cities as [|city rest IH]; intros acc H;
    [eexists; reflexivity|].
  cbn [for_city]. destruct (H city (or_introl eq_refl)) as [cx ->].
  cbn [bind].
  destruct (cost_ltb cx (fst acc)); apply IH; intros x Hx; apply H;
    right; exact Hx.
Qed.

(** With finite costs a non-empty scan always selects a candidate. *)
Lemma for_city_selects (s : state) :
  loop_invariant matrix s -> unvisited s <> [] ->
  exists m c,
    scan (prev s) (current s) (unvisited s) (PInf, None) = Ok (m, Some c)
    /\ In c (unvisited s).
Proof.
  intros Hinv Hne.
  destruct (for_city_total (prev s) (current s) (unvisited s) (PInf, None))
    as [acc' Hscan].
  { intros x Hx. destruct (candidate_cost_finite s x Hinv Hx) as [r Hr].
    eauto. }
  destruct (for_city_first_min _ _ _ _ _ _ _ _ Hscan)
    as [[_ Hall] | (l1 & c & l2 & m & Hsplit & -> & _)].
  - destruct (unvisited s) as [|x rest] eqn:E; [congruence|].
    destruct (Hall x (or_introl eq_refl)) as [cx [Hcx Hlt]].
    assert (Hx : In x (unvisited s)) by (rewrite E; left; reflexivity).
    destruct (candidate_cost_finite s x Hinv Hx) as [r Hr].
    rewrite Hr in Hcx. injection Hcx as <-.
    discriminate.
  - exists m, c. split; [exact Hscan|].
    rewrite Hsplit. apply in_or_app. right. left. reflexivity.
Qed.

Lemma remove_split_nodup (c : nat) (l1 l2 : list nat) :
  NoDup (l1 ++ c :: l2) -> remove Nat.eq_dec c (l1 ++ c :: l2) = l1 ++ l2.
Proof.
  intros H. apply NoDup_remove_2 in H.
  rewrite remove_app. cbn [remove].
  destruct (Nat.eq_dec c c) as [_|Hne]; [|congruence].
  rewrite !notin_remove; [reflexivity | |];
    intros Hin; apply H; apply in_or_app; auto.
Qed.

(** One iteration on finite costs: it succeeds, moves exactly one city from
    the candidates to the order, and keeps the invariant. *)
Lemma loop_body_step (s : state) :
  loop_invariant matrix s -> unvisited s <> [] ->
  exists s',
    body s = Ok s' /\ loop_invariant matrix s' /\
    length (order s') = S (length (order s)) /\
    S (length (unvisited s')) = length (unvisited s).
Proof.
  intros Hinv Hne.
  destruct (for_city_selects s Hinv Hne) as (m & c & Hscan & Hin).
  exists {| order := order s ++ [c];
            unvisited := remove Nat.eq_dec c (unvisited s);
            current := c;
            prev := Some (current s) |}.
  assert (Hbody : body s = Ok {| order := order s ++ [c];
            unvisited := remove Nat.eq_dec c (unvisited s);
            current := c;
            prev := Some (current s) |}).
  { unfold loop_body. rewrite Hscan. cbn [bind snd set_remove].
    destruct (in_dec Nat.eq_dec c (unvisited s)); [reflexivity|tauto]. }
  destruct (in_split _ _ Hin) as (l1 & l2 & Hsplit).
  pose proof (invariant_nodup s Hinv) as Hnd.
  assert (Hrem : remove Nat.eq_dec c (unvisited s) = l1 ++ l2).
  { rewrite Hsplit. apply remove_split_nodup. rewrite <- Hsplit.
    eapply NoDup_app_remove_l. exact Hnd. }
  split; [exact Hbody|]. split; [|split].
  - constructor; cbn [order unvisited current prev].
    + rewrite Hrem. eapply Permutation_trans;
        [|apply (inv_perm _ _ Hinv)].
      rewrite Hsplit, <- app_assoc. apply Permutation_app_head.
      cbn [app]. apply Permutation_middle.
    + destruct (order s) as [|o os] eqn:Eo;
        [pose proof (inv_start _ _ Hinv) as Hs; rewrite Eo in Hs; discriminate|].
      rewrite <- Eo. pose proof (inv_start _ _ Hinv) as Hs.
      destruct (order s); [discriminate | exact Hs].
    + exact (invariant_candidate s c Hinv Hin).
    + apply remove_In.
    + intros p Hp. injection Hp as <-. exact (inv_current _ _ Hinv).
  - cbn [order]. rewrite length_app. simpl. lia.
  - cbn [unvisited]. rewrite Hrem, Hsplit, !length_app. simpl. lia.
Qed.

(** On finite costs the loop runs exactly as many iterations as there are
    candidates, one appended city per iteration, and then exits. *)
Lemma while_reachable (s : state) :
  loop_invariant matrix s ->
  exists s',
    while s = Ok s' /\ iter (length (unvisited s)) s = Ok s' /\
    loop_invariant matrix s' /\ unvisited s' = [] /\
    length (order s') = (length (order s) + length (unvisited s))%nat.
Proof.
  remember (length (unvisited s)) as k eqn:Ek.
  revert s Ek. induction k as [|k IH]; intros s Ek Hinv.
  - exists s. rewrite while_unvisited_step.
    destruct (unvisited s) eqn:E; [|discriminate].
    split; [reflexivity|]. split; [reflexivity|]. split; [exact Hinv|].
    split; [reflexivity|]. simpl. lia.
  - assert (Hne : unvisited s <> [])
      by (intros E; rewrite E in Ek; discriminate).
    destruct (loop_body_step s Hinv Hne) as (s1 & Hbody & Hinv1 & Ho & Hu).
    destruct (IH s1 ltac:(lia) Hinv1) as (s' & Hw & Hi & Hinv' & He & Hl).
    exists s'. rewrite while_unvisited_step.
    destruct (unvisited s) eqn:E; [congruence|].
    cbn [iterate_body]. rewrite Hbody. cbn [bind].
    split; [exact Hw|]. split; [exact Hi|]. split; [exact Hinv'|].
    split; [exact He|]. simpl in Hu. lia.
Qed.

Lemma initial_invariant : (1 <= n)%nat -> loop_invariant matrix (initial_state matrix).
Proof.
  intros Hn. unfold initial_state. constructor; cbn.
  - replace (0%nat :: seq 1 (n - 1)) with (seq 0 n);
      [apply Permutation_refl|].
    destruct n as [|m]; [lia|]. cbn. rewrite Nat.sub_0_r. reflexivity.
  - reflexivity.
  - lia.
  - rewrite in_seq. lia.
  - discriminate.
Qed.

(** With at least one stop and a route between every two stops, the call
    returns a permutation of [0..n-1] that starts with 0, after exactly
    [n - 1] iterations. *)
Lemma solve_reachable :
  (1 <= n)%nat ->
  exists sf,
    solve_tsp_nearest_neighbor_with_right_turn_penalty
      coords matrix (Fin penalty) = Ok (order sf) /\
    iter (n - 1) (initial_state matrix) = Ok sf /\
    unvisited sf = [] /\
    length (order sf) = n /\
    Permutation (order sf) (seq 0 n) /\
    NoDup (order sf) /\
    hd_error (order sf) = Some 0%nat.
Proof.
  intros Hn.
  destruct (while_reachable _ (initial_invariant Hn))
    as (sf & Hw & Hi & Hinv & He & Hl).
  exists sf. unfold solve_tsp_nearest_neighbor_with_right_turn_penalty.
  rewrite Hw. cbn [bind].
  cbn [initial_state unvisited order] in Hi, Hl. rewrite length_seq in Hi, Hl.
  pose proof (inv_perm _ _ Hinv) as Hp. rewrite He, app_nil_r in Hp.
  repeat split; auto.
  - simpl in Hl. lia.
  - eapply Permutation_NoDup;
      [apply Permutation_sym; exact Hp | apply seq_NoDup].
  - exact (inv_start _ _ Hinv).
Qed.

End Reachable.

(** * An unreachable leg in the total *)

Lemma totalCost_step (matrix : list (list cost)) (a b : nat)
    (rest : list nat) :
  totalCost matrix (a :: b :: rest) =
  bind (getitem matrix a) (fun row =>
  bind (getitem row b) (fun x =>
  bind (totalCost matrix (b :: rest)) (fun r => Ok (cost_add x r)))).
Proof. reflexivity. Qed.

(** A total over an order with a leg of cost [+inf] is [+inf]. *)
Lemma total_distance_unreachable (matrix : list (list cost))
    (l1 l2 : list nat) (a b : nat) (r : cost) :
  entry matrix a b = Ok PInf ->
  total_distance matrix (l1 ++ a :: b :: l2) = Ok r ->
  r = PInf.
Proof.
  rewrite total_distance_pairs. intros Hleg. revert r.
  induction l1 as [|x l1 IH]; intros r H.
  - cbn [app] in H. rewrite totalCost_step in H. unfold entry in Hleg.
    destruct (getitem matrix a) as [row|e]; cbn [bind] in *; [|congruence].
    rewrite Hleg in H. cbn [bind] in H.
    destruct (totalCost matrix (b :: l2)); cbn [bind] in H; [|congruence].
    injection H as <-. reflexivity.
  - assert (E : exists y rest, l1 ++ a :: b :: l2 = y :: rest)
      by (destruct l1; cbn; eauto).
    destruct E as (y & rest & E). cbn [app] in H. rewrite E in H, IH.
    rewrite totalCost_step in H.
    destruct (getitem matrix x) as [row|e]; cbn [bind] in H; [|congruence].
    destruct (getitem row y) as [c|e]; cbn [bind] in H; [|congruence].
    destruct (totalCost matrix (y :: rest)) as [t|e]; cbn [bind] in H;
      [|congruence].
    injection H as <-. rewrite (IH t eq_refl). apply cost_add_inf_r.
Qed.

(** * Worked runs *)

Section Runs.

(** Closes the comparisons of numerals that a concrete run meets. *)
Ltac decide_costs :=
  cbn [cost_ltb cost_add];
  repeat match goal with
         | |- context [Rlt_dec ?a ?b] => destruct (Rlt_dec a b); try lra
         end.

(** The corner example with penalty 500: from stop 0 the nearest stop is 1;
    at stop 1 the only candidate is a right turn, and it is still taken. *)
Lemma corner_first_step :
  loop_body coords_corner matrix_corner (Fin 500)
    (initial_state matrix_corner)
  = Ok {| order := [0; 1]%nat; unvisited := [2%nat];
          current := 1%nat; prev := Some 0%nat |}.
Proof.
  unfold loop_body. cbn [initial_state matrix_corner length Nat.sub seq prev
    current unvisited for_city candidate_cost getitem nth_error bind fst].
  decide_costs. reflexivity.
Qed.

Lemma corner_second_cost :
  candidate_cost coords_corner matrix_corner (Fin 500) (Some 0%nat) 1 2
  = Ok (Fin (15 + 500)).
Proof.
  unfold candidate_cost.
  cbn [coords_corner matrix_corner getitem nth_error bind].
  rewrite calculate_angle_right_angle.
  replace (right_turn (-90)) with true
    by (symmetry; apply right_turn_true; lra).
  reflexivity.
Qed.

Lemma corner_second_step :
  loop_body coords_corner matrix_corner (Fin 500)
    {| order := [0; 1]%nat; unvisited := [2%nat];
       current := 1%nat; prev := Some 0%nat |}
  = Ok {| order := [0; 1; 2]%nat; unvisited := [];
          current := 2%nat; prev := Some 1%nat |}.
Proof.
  unfold loop_body. cbn [prev current unvisited for_city].
  rewrite corner_second_cost. reflexivity.
Qed.

Lemma solve_corner :
  solve_tsp_nearest_neighbor_with_right_turn_penalty
    coords_corner matrix_corner (Fin 500) = Ok [0; 1; 2]%nat.
Proof.
  unfold solve_tsp_nearest_neighbor_with_right_turn_penalty.
  rewrite while_unvisited_step. cbn [initial_state unvisited matrix_corner
    length Nat.sub seq].
  change (loop_body coords_corner
            [[Fin 0; Fin 10; Fin 20]; [Fin 10; Fin 0; Fin 15];
             [Fin 20; Fin 15; Fin 0]] (Fin 500)
            {| order := [0%nat]; unvisited := [1; 2]%nat;
               current := 0%nat; prev := None |})
    with (loop_body coords_corner matrix_corner (Fin 500)
            (initial_state matrix_corner)).
  rewrite corner_first_step. cbn [bind].
  rewrite while_unvisited_step. cbn [unvisited].
  fold matrix_corner. rewrite corner_second_step. cbn [bind].
  rewrite while_unvisited_step. reflexivity.
Qed.

(** The hypotheses of [solve_reachable] hold of the corner example. *)
Lemma corner_reachable (i j : nat) :
  (i < length matrix_corner)%nat -> (j < length matrix_corner)%nat ->
  i <> j -> exists r, entry matrix_corner i j = Ok (Fin r).
Proof.
  intros Hi Hj Hne. cbn [matrix_corner length] in Hi, Hj.
  destruct i as [|[|[|i]]]; [| | |lia];
    (destruct j as [|[|[|j]]]; [| | |lia]);
    try congruence; cbn; eauto.
Qed.

Lemma solve_corner_permutation :
  exists order,
    solve_tsp_nearest_neighbor_with_right_turn_penalty
      coords_corner matrix_corner (Fin 500) = Ok order /\
    Permutation order [0; 1; 2]%nat /\ hd_error order = Some 0%nat.
Proof.
  destruct (solve_reachable coords_corner matrix_corner 500 eq_refl
              corner_reachable)
    as (sf & Hsolve & _ & _ & _ & Hperm & _ & Hhd).
  - cbn. lia.
  - exists (order sf). repeat split; assumption.
Qed.

(** The cross example: the penalty of 500 sends the route to the farther
    stop D first, where a call without penalty goes to the nearer stop C. *)
Lemma calculate_angle_left :
  calculate_angle (0, 1) (0, 0) (-1, 0) = 90.
Proof.
  rewrite calculate_angle_normalize. simpl.
  replace (0 - 0) with 0 by lra. replace (1 - 0) with 1 by lra.
  replace (-1 - 0) with (-1) by lra.
  rewrite atan2_west, atan2_north.
  replace (PI - PI / 2) with (PI / 2) by lra.
  rewrite degrees_half_PI. apply normalize_id. lra.
Qed.

Lemma cross_first_step (penalty : cost) :
  loop_body coords_cross matrix_cross penalty (initial_state matrix_cross)
  = Ok {| order := [0; 1]%nat; unvisited := [2; 3]%nat;
          current := 1%nat; prev := Some 0%nat |}.
Proof.
  unfold loop_body. cbn [initial_state matrix_cross length Nat.sub seq prev
    current unvisited for_city candidate_cost getitem nth_error bind fst].
  decide_costs. reflexivity.
Qed.

Lemma cross_right_cost (penalty : cost) :
  candidate_cost coords_cross matrix_cross penalty (Some 0%nat) 1 2
  = Ok (cost_add (Fin 15) penalty).
Proof.
  unfold candidate_cost.
  cbn [coords_cross matrix_cross getitem nth_error bind].
  rewrite calculate_angle_right_angle.
  replace (right_turn (-90)) with true
    by (symmetry; apply right_turn_true; lra).
  reflexivity.
Qed.

Lemma cross_left_cost (penalty : cost) :
  candidate_cost coords_cross matrix_cross penalty (Some 0%nat) 1 3
  = Ok (Fin 100).
Proof.
  unfold candidate_cost.
  cbn [coords_cross matrix_cross getitem nth_error bind].
  rewrite calculate_angle_left.
  replace (right_turn 90) with false
    by (symmetry; apply right_turn_false; lra).
  reflexivity.
Qed.


Lemma cross_second_step_free :
  loop_body coords_cross matrix_cross (Fin 0)
    {| order := [0; 1]%nat; unvisited := [2; 3]%nat;
       current := 1%nat; prev := Some 0%nat |}
  = Ok {| order := [0; 1; 2]%nat; unvisited := [3%nat];
          current := 2%nat; prev := Some 1%nat |}.
Proof.
  unfold loop_body. cbn [prev current unvisited for_city].
  rewrite cross_right_cost. cbn [bind fst]. decide_costs.
  rewrite cross_left_cost. cbn [bind fst]. decide_costs. reflexivity.
Qed.

End Runs.

(** * Further properties of the greedy order *)

Section LoopInvariants.
Import Extras.

Variable coords : list point.
Variable matrix : list (list cost).
Variable penalty : cost.

#[local] Abbreviation cc := (candidate_cost coords matrix penalty).
#[local] Abbreviation scan := (for_city coords matrix penalty).
#[local] Abbreviation body := (loop_body coords matrix penalty).
#[local] Abbreviation while := (while_unvisited coords matrix penalty).
#[local] Abbreviation iter := (iterate_body coords matrix penalty).
#[local] Abbreviation solve :=
  (solve_tsp_nearest_neighbor_with_right_turn_penalty coords matrix penalty).

(** A property of the loop variables that every successful iteration keeps
    holds when the loop exits, with no candidate left. *)
Lemma while_preserves (P : state -> Prop) :
  (forall s s', P s -> body s = Ok s' -> P s') ->
  forall s s', P s -> while s = Ok s' -> P s' /\ unvisited s' = [].
Proof.
  intros Hstep s. remember (length (unvisited s)) as k eqn:Ek.
  revert s Ek. induction k as [k IH] using lt_wf_ind. intros s Ek s' HP Hw.
  rewrite while_unvisited_step in Hw.
  destruct (unvisited s) as [|c rest] eqn:E.
  - injection Hw as <-. split; assumption.
  - destruct (body s) as [s1|e] eqn:Eb; cbn [bind] in Hw; [|discriminate].
    apply (IH (length (unvisited s1))) with (s := s1); auto.
    + subst k. rewrite <- E. eapply loop_body_shrinks. exact Eb.
    + eapply Hstep; eassumption.
Qed.

Lemma loop_body_preserves (s s' : state) :
  loop_invariant matrix s -> body s = Ok s' -> loop_invariant matrix s'.
Proof.
  intros Hinv Hbody.
  apply loop_body_ok in Hbody as (m & c & _ & Hin & ->).
  destruct (in_split _ _ Hin) as (l1 & l2 & Hsplit).
  pose proof (invariant_nodup matrix s Hinv) as Hnd.
  assert (Hrem : remove Nat.eq_dec c (unvisited s) = l1 ++ l2).
  { rewrite Hsplit. apply remove_split_nodup. rewrite <- Hsplit.
    eapply NoDup_app_remove_l. exact Hnd. }
  assert (Hc : (c < length matrix)%nat).
  { assert (H : In c (seq 0 (length matrix))).
    { eapply Permutation_in; [apply (inv_perm _ _ Hinv)|].
      apply in_or_app. right. exact Hin. }
    apply in_seq in H. destruct H as [_ H]. exact H. }
  constructor; cbn [order unvisited current prev].
  - rewrite Hrem. eapply Permutation_trans; [|apply (inv_perm _ _ Hinv)].
    rewrite Hsplit, <- app_assoc. apply Permutation_app_head.
    cbn [app]. apply Permutation_middle.
  - pose proof (inv_start _ _ Hinv) as Hs.
    destruct (order s); [discriminate | exact Hs].
  - exact Hc.
  - apply remove_In.
  - intros p Hp. injection Hp as <-. exact (inv_current _ _ Hinv).
Qed.

Lemma initial_loop_invariant :
  (1 <= length matrix)%nat -> loop_invariant matrix (initial_state matrix).
Proof.
  intros Hn. unfold initial_state. constructor; cbn.
  - replace (0%nat :: seq 1 (length matrix - 1)) with (seq 0 (length matrix));
      [apply Permutation_refl|].
    destruct (length matrix) as [|m]; [inversion Hn|].
    cbn. rewrite Nat.sub_0_r. reflexivity.
  - reflexivity.
  - exact Hn.
  - rewrite in_seq. intros [H _]. inversion H.
  - discriminate.
Qed.

Lemma solve_ok_while (order : list nat) :
  solve = Ok order ->
  exists s, while (initial_state matrix) = Ok s /\ order = Route.order s.
Proof.
  unfold solve_tsp_nearest_neighbor_with_right_turn_penalty.
  destruct (while (initial_state matrix)) as [s|e]; cbn [bind];
    [|discriminate].
  intros H. injection H as <-. exists s. split; reflexivity.
Qed.

(** The loop variables at the exit of a call that returns. *)
Lemma solve_ok_invariant (order : list nat) :
  (1 <= length matrix)%nat ->
  solve = Ok order ->
  exists s,
    order = Route.order s /\ loop_invariant matrix s /\ unvisited s = [].
Proof.
  intros Hn Hsolve. apply solve_ok_while in Hsolve as (s & Hw & ->).
  destruct (while_preserves (loop_invariant matrix) loop_body_preserves
              _ _ (initial_loop_invariant Hn) Hw) as [Hinv He].
  exists s. split; [reflexivity|]. split; assumption.
Qed.

Lemma exit_permutation (s : state) :
  loop_invariant matrix s -> unvisited s = [] ->
  Permutation (order s) (seq 0 (length matrix)).
Proof.
  intros Hinv He. pose proof (inv_perm _ _ Hinv) as Hp.
  rewrite He, app_nil_r in Hp. exact Hp.
Qed.

(** X1: whenever the call returns an order for a matrix with at least one
    row, that order is a permutation of [0..n-1] without repetition, of
    length [n], starting with 0 -- whatever the costs are. *)
Theorem solve_returns_permutation (order : list nat) :
  (1 <= length matrix)%nat ->
  solve_tsp_nearest_neighbor_with_right_turn_penalty coords matrix penalty
  = Ok order ->
  Permutation order (seq 0 (length matrix)) /\
  NoDup order /\
  length order = length matrix /\
  hd_error order = Some 0%nat.
Proof.
  intros Hn Hsolve.
  destruct (solve_ok_invariant order Hn Hsolve) as (s & -> & Hinv & He).
  pose proof (exit_permutation s Hinv He) as Hp.
  split; [exact Hp|]. split; [|split].
  - eapply Permutation_NoDup; [apply Permutation_sym; exact Hp|].
    apply seq_NoDup.
  - rewrite (Permutation_length Hp). apply length_seq.
  - exact (inv_start _ _ Hinv).
Qed.

End LoopInvariants.

Lemma solve_returns_permutation_witness :
  Permutation [0; 1; 2]%nat (seq 0 (length matrix_corner)) /\
  hd_error [0; 1; 2]%nat = Some 0%nat.
Proof.
  destruct (solve_returns_permutation coords_corner matrix_corner (Fin 500)
              [0; 1; 2]%nat) as (Hp & _ & _ & Hh).
  - cbn. lia.
  - exact solve_corner.
  - split; assumption.
Defined.

(** * The right-turn penalty *)

Section PenaltyRule.

Variable coords : list point.
Variable matrix : list (list cost).
Variable penalty : cost.





End PenaltyRule.



Section FiniteLegs.
Import Extras.

Variable coords : list point.
Variable matrix : list (list cost).
Variable penalty : cost.

#[local] Abbreviation cc := (candidate_cost coords matrix penalty).
#[local] Abbreviation body := (loop_body coords matrix penalty).
#[local] Abbreviation while := (while_unvisited coords matrix penalty).

(** A finite penalised cost comes from a finite matrix entry. *)
Lemma candidate_cost_fin_entry (prv : option nat) (cur city : nat) (r : R) :
  cc prv cur city = Ok (Fin r) ->
  exists r', entry matrix cur city = Ok (Fin r').
Proof.
  rewrite candidate_cost_entry.
  destruct (entry matrix cur city) as [[r'|]|e]; cbn [bind];
    [eauto | | discriminate].
  destruct prv as [p|]; [|discriminate].
  destruct (getitem coords p); cbn [bind]; [|discriminate].
  destruct (getitem coords cur); cbn [bind]; [|discriminate].
  destruct (getitem coords city); cbn [bind]; [|discriminate].
  destruct (right_turn _); discriminate.
Qed.

(** The city an iteration selects is reachable from the current one. *)
Lemma loop_body_leg (s s' : state) :
  body s = Ok s' ->
  exists r, entry matrix (current s) (current s') = Ok (Fin r).
Proof.
  intros H. apply loop_body_ok in H as (m & c & Hscan & _ & ->).
  cbn [current].
  apply for_city_first_min in Hscan
    as [[E _] | (l1 & c' & l2 & m' & _ & E & Hc & Hlt & _)];
    [discriminate|].
  injection E as <- <-. cbn [fst] in Hlt.
  destruct m as [r|]; [|discriminate].
  eapply candidate_cost_fin_entry. exact Hc.
Qed.

Lemma legs_finite_snoc (o : list nat) (a c : nat) :
  legs_finite matrix (o ++ [a]) ->
  (exists r, entry matrix a c = Ok (Fin r)) ->
  legs_finite matrix ((o ++ [a]) ++ [c]).
Proof.
  intros Ho Hleg. induction o as [|x o IH]; [cbn; auto|].
  destruct o as [|y o].
  - cbn in Ho |- *. destruct Ho as [Hxa _]. auto.
  - cbn [app legs_finite] in Ho |- *. destruct Ho as [Hxy Hrest].
    split; [exact Hxy|]. apply IH. exact Hrest.
Qed.

Lemma route_so_far_step (s s' : state) :
  route_so_far matrix s -> body s = Ok s' -> route_so_far matrix s'.
Proof.
  intros [[o Ho] Hlegs] Hbody.
  pose proof (loop_body_leg s s' Hbody) as Hleg.
  apply loop_body_ok in Hbody as (m & c & _ & _ & ->).
  cbn [current order] in *. split.
  - exists (order s). reflexivity.
  - rewrite Ho in Hlegs |- *. apply legs_finite_snoc; assumption.
Qed.

(** No subscript of the sum is out of range on such an order. *)
Lemma legs_finite_total (order : list nat) :
  legs_finite matrix order -> exists t, totalCost matrix order = Ok t.
Proof.
  induction order as [|a order IH]; [intros _; cbn; eauto|].
  destruct order as [|b order]; [intros _; cbn; eauto|].
  intros [[r Hab] Hrest]. destruct (IH Hrest) as [t Ht].
  rewrite totalCost_step. unfold entry in Hab.
  destruct (getitem matrix a) as [row|e]; cbn [bind] in *; [|discriminate].
  rewrite Hab. cbn [bind]. rewrite Ht. cbn [bind]. eauto.
Qed.

Lemma solve_ok_legs_finite (order : list nat) :
  solve_tsp_nearest_neighbor_with_right_turn_penalty coords matrix penalty
  = Ok order ->
  legs_finite matrix order.
Proof.
  intros Hsolve. apply solve_ok_while in Hsolve as (s & Hw & ->).
  assert (Hinit : route_so_far matrix (initial_state matrix)).
  { split; [exists []; reflexivity | exact I]. }
  destruct (while_preserves coords matrix penalty (route_so_far matrix)
              route_so_far_step _ _ Hinit Hw) as [[_ Hlegs] _].
  exact Hlegs.
Qed.

(** X2: an order the call returns never uses an unreachable leg: every
    pair of consecutive stops has a finite matrix entry, and the sum of the
    total distance over it reads the matrix at valid subscripts only, so
    that it raises no error. *)
Theorem solve_legs_finite (order : list nat) :
  solve_tsp_nearest_neighbor_with_right_turn_penalty coords matrix penalty
  = Ok order ->
  legs_finite matrix order /\
  exists t, total_distance matrix order = Ok t.
Proof.
  intros Hsolve. pose proof (solve_ok_legs_finite order Hsolve) as Hlegs.
  split; [exact Hlegs|].
  rewrite total_distance_pairs. apply legs_finite_total. exact Hlegs.
Qed.

End FiniteLegs.

Lemma solve_legs_finite_witness :
  Extras.legs_finite matrix_corner [0; 1; 2]%nat /\
  exists t, total_distance matrix_corner [0; 1; 2]%nat = Ok t.
Proof.
  apply (solve_legs_finite coords_corner matrix_corner (Fin 500)
           [0; 1; 2]%nat).
  exact solve_corner.
Defined.

Section Outcomes.
Import Extras.

Variable coords : list point.
Variable matrix : list (list cost).
Variable penalty : cost.

#[local] Abbreviation cc := (candidate_cost coords matrix penalty).
#[local] Abbreviation scan := (for_city coords matrix penalty).
#[local] Abbreviation body := (loop_body coords matrix penalty).
#[local] Abbreviation while := (while_unvisited coords matrix penalty).
#[local] Abbreviation iter := (iterate_body coords matrix penalty).
#[local] Abbreviation solve :=
  (solve_tsp_nearest_neighbor_with_right_turn_penalty coords matrix penalty).

Lemma invariant_candidate_lt (s : state) (city : nat) :
  loop_invariant matrix s -> In city (unvisited s) ->
  (city < length matrix)%nat.
Proof.
  intros Hinv Hin.
  assert (H : In city (seq 0 (length matrix))).
  { eapply Permutation_in; [apply (inv_perm _ _ Hinv)|].
    apply in_or_app. right. exact Hin. }
  apply in_seq in H. destruct H as [_ H]. exact H.
Qed.

Lemma square_entry (i j : nat) :
  square (length matrix) matrix ->
  (i < length matrix)%nat -> (j < length matrix)%nat ->
  exists c, entry matrix i j = Ok c.
Proof.
  intros [_ Hrows] Hi Hj. unfold entry.
  destruct (getitem_lt_ok matrix i Hi) as [row Hrow]. rewrite Hrow.
  cbn [bind]. apply getitem_lt_ok.
  assert (Hin : In row matrix).
  { unfold getitem in Hrow. destruct (nth_error matrix i) eqn:E;
      [|discriminate]. injection Hrow as <-. eapply nth_error_In. exact E. }
  rewrite Forall_forall in Hrows. rewrite (Hrows row Hin). exact Hj.
Qed.

(** On a square matrix with a coordinate pair per row, no subscript of the
    scan is out of range. *)
Lemma candidate_cost_defined (s : state) (city : nat) :
  square (length matrix) matrix -> length coords = length matrix ->
  loop_invariant matrix s -> In city (unvisited s) ->
  exists cx, cc (prev s) (current s) city = Ok cx.
Proof.
  intros Hsq Hco Hinv Hin.
  pose proof (invariant_candidate_lt s city Hinv Hin) as Hcity.
  destruct (square_entry (current s) city Hsq (inv_current _ _ Hinv) Hcity)
    as [c Hc].
  rewrite candidate_cost_entry, Hc. cbn [bind].
  destruct (prev s) as [p|] eqn:Ep; [|eauto].
  destruct (getitem_lt_ok coords p) as [p1 ->];
    [rewrite Hco; apply (inv_prev _ _ Hinv); exact Ep|].
  destruct (getitem_lt_ok coords (current s)) as [p2 ->];
    [rewrite Hco; apply (inv_current _ _ Hinv)|].
  destruct (getitem_lt_ok coords city) as [p3 ->];
    [rewrite Hco; exact Hcity|].
  cbn [bind]. destruct (right_turn _); eauto.
Qed.

Lemma for_city_defined (prv : option nat) (cur : nat) (cities : list nat)
    (acc : cost * option nat) :
  (forall x, In x cities -> exists cx, cc prv cur x = Ok cx) ->
  exists acc', scan prv cur cities acc = Ok acc'.
Proof.
  revert acc. induction cities as [|city rest IH]; intros acc H;
    [eexists; reflexivity|].
  cbn [for_city]. destruct (H city (or_introl eq_refl)) as [cx ->].
  cbn [bind].
  destruct (cost_ltb cx (fst acc)); apply IH; intros x Hx; apply H;
    right; exact Hx.
Qed.

Lemma not_below_inf (c : cost) : cost_ltb c PInf = false -> c = PInf.
Proof. destruct c; [discriminate | reflexivity]. Qed.

(** An iteration on well-shaped input either moves a city or is stuck. *)
Lemma loop_body_outcomes (s : state) :
  square (length matrix) matrix -> length coords = length matrix ->
  loop_invariant matrix s -> unvisited s <> [] ->
  (exists s', body s = Ok s') \/
  (body s = Raise KeyError /\ stuck coords matrix penalty s).
Proof.
  intros Hsq Hco Hinv Hne.
  destruct (for_city_defined (prev s) (current s) (unvisited s) (PInf, None))
    as [acc' Hscan].
  { intros x Hx. apply candidate_cost_defined; assumption. }
  destruct (for_city_first_min _ _ _ _ _ _ _ _ Hscan)
    as [[-> Hall] | (l1 & c & l2 & m & Hsplit & -> & _)].
  - right.
    assert (Hstuck : stuck coords matrix penalty s).
    { split; [exact Hne|]. intros city Hcity.
      destruct (Hall city Hcity) as [cx [Hcx Hlt]].
      rewrite Hcx. f_equal. apply not_below_inf. exact Hlt. }
    split; [|exact Hstuck].
    apply loop_body_all_inf. apply Hstuck.
  - left. unfold loop_body. rewrite Hscan. cbn [bind snd set_remove].
    assert (Hin : In c (unvisited s))
      by (rewrite Hsplit; apply in_or_app; right; left; reflexivity).
    destruct (in_dec Nat.eq_dec c (unvisited s)); [|tauto].
    cbn [bind]. eauto.
Qed.

Lemma while_outcomes (s : state) :
  square (length matrix) matrix -> length coords = length matrix ->
  loop_invariant matrix s ->
  (exists s', while s = Ok s') \/
  (while s = Raise KeyError /\
   exists k s1, iter k s = Ok s1 /\ stuck coords matrix penalty s1).
Proof.
  intros Hsq Hco. remember (length (unvisited s)) as k eqn:Ek.
  revert s Ek. induction k as [k IH] using lt_wf_ind. intros s Ek Hinv.
  rewrite while_unvisited_step.
  destruct (unvisited s) as [|c rest] eqn:E; [left; eauto|].
  assert (Hne : unvisited s <> []) by (rewrite E; discriminate).
  destruct (loop_body_outcomes s Hsq Hco Hinv Hne)
    as [[s' Hb] | [Hb Hstuck]].
  - rewrite Hb. cbn [bind].
    assert (Hlt : (length (unvisited s') < k)%nat).
    { subst k. rewrite <- E. eapply loop_body_shrinks. exact Hb. }
    destruct (IH _ Hlt s' eq_refl
                (loop_body_preserves coords matrix penalty s s' Hinv Hb))
      as [Hok | [Hraise (j & s1 & Hj & Hs1)]]; [left; exact Hok|].
    right. split; [exact Hraise|]. exists (S j), s1.
    cbn [iterate_body]. rewrite Hb. cbn [bind]. split; assumption.
  - rewrite Hb. right. split; [reflexivity|].
    exists 0%nat, s. split; [reflexivity | exact Hstuck].
Qed.

(** X3: on an [n] by [n] matrix with [n] coordinate pairs ([n >= 1]) the
    call never raises IndexError; it raises KeyError exactly when the loop
    reaches a step at which every remaining candidate costs [+inf]
    (penalty included), and returns an order otherwise. *)
Theorem solve_outcomes :
  (1 <= length matrix)%nat ->
  square (length matrix) matrix ->
  length coords = length matrix ->
  solve_tsp_nearest_neighbor_with_right_turn_penalty coords matrix penalty
  <> Raise IndexError /\
  (solve_tsp_nearest_neighbor_with_right_turn_penalty coords matrix penalty
   = Raise KeyError <->
   exists k s,
     iterate_body coords matrix penalty k (initial_state matrix) = Ok s /\
     stuck coords matrix penalty s) /\
  ((exists order,
      solve_tsp_nearest_neighbor_with_right_turn_penalty coords matrix penalty
      = Ok order) <->
   ~ exists k s,
       iterate_body coords matrix penalty k (initial_state matrix) = Ok s /\
       stuck coords matrix penalty s).
Proof.
  intros Hn Hsq Hco.
  assert (Hstuck : forall k s,
            iter k (initial_state matrix) = Ok s ->
            stuck coords matrix penalty s -> solve = Raise KeyError).
  { intros k s Hk [Hne Hinf].
    rewrite (solve_while _ _ _ _ _ Hk).
    rewrite while_all_inf by assumption. reflexivity. }
  pose proof (while_outcomes _ Hsq Hco (initial_loop_invariant matrix Hn))
    as Hout.
  unfold solve_tsp_nearest_neighbor_with_right_turn_penalty in *.
  destruct Hout as [[s' Hok] | [Hraise (k & s1 & Hk & Hs1)]].
  - rewrite Hok in *. cbn [bind] in *. split; [discriminate|]. split.
    + split; [discriminate|]. intros (k & s & Hk & Hs).
      exact (Hstuck k s Hk Hs).
    + split; [|eauto]. intros _ (k & s & Hk & Hs).
      specialize (Hstuck k s Hk Hs). discriminate.
  - rewrite Hraise in *. cbn [bind] in *. split; [discriminate|]. split.
    + split; [eauto | reflexivity].
    + split; [intros [o Ho]; discriminate|]. intros H. exfalso. eauto.
Qed.

End Outcomes.

Lemma solve_outcomes_witness :
  solve_tsp_nearest_neighbor_with_right_turn_penalty
    coords_island matrix_scattered (Fin 500) = Raise KeyError.
Proof.
  destruct (solve_outcomes coords_island matrix_scattered (Fin 500))
    as (_ & [_ Hkey] & _).
  - cbn. lia.
  - split; [reflexivity|]. repeat constructor.
  - reflexivity.
  - apply Hkey. exists 0%nat, (initial_state matrix_scattered).
    split; [reflexivity|]. split; [discriminate|].
    intros city [<-|[<-|[]]]; reflexivity.
Defined.

Section NoPenalty.
Import Extras.

Variable matrix : list (list cost).

Lemma cost_add_0_r (c : cost) : cost_add c (Fin 0) = c.
Proof. destruct c as [x|]; cbn; [f_equal; lra | reflexivity]. Qed.

(** With penalty 0 the cost of a candidate is the matrix entry. *)
Lemma candidate_cost_no_penalty (coords : list point) (s : state)
    (city : nat) :
  length coords = length matrix ->
  loop_invariant matrix s -> In city (unvisited s) ->
  candidate_cost coords matrix (Fin 0) (prev s) (current s) city
  = entry matrix (current s) city.
Proof.
  intros Hco Hinv Hin.
  pose proof (invariant_candidate_lt matrix s city Hinv Hin) as Hcity.
  rewrite candidate_cost_entry.
  destruct (entry matrix (current s) city) as [c|e]; cbn [bind];
    [|reflexivity].
  destruct (prev s) as [p|] eqn:Ep; [|reflexivity].
  destruct (getitem_lt_ok coords p) as [p1 ->];
    [rewrite Hco; apply (inv_prev _ _ Hinv); exact Ep|].
  destruct (getitem_lt_ok coords (current s)) as [p2 ->];
    [rewrite Hco; apply (inv_current _ _ Hinv)|].
  destruct (getitem_lt_ok coords city) as [p3 ->];
    [rewrite Hco; exact Hcity|].
  cbn [bind]. destruct (right_turn _); [rewrite cost_add_0_r|]; reflexivity.
Qed.

Lemma for_city_ext (c1 c2 : list point) (p1 p2 : cost)
    (prv : option nat) (cur : nat) (cities : list nat)
    (acc : cost * option nat) :
  (forall city, In city cities ->
     candidate_cost c1 matrix p1 prv cur city
     = candidate_cost c2 matrix p2 prv cur city) ->
  for_city c1 matrix p1 prv cur cities acc
  = for_city c2 matrix p2 prv cur cities acc.
Proof.
  revert acc. induction cities as [|city rest IH]; intros acc H;
    [reflexivity|].
  cbn [for_city]. rewrite (H city (or_introl eq_refl)).
  destruct (candidate_cost c2 matrix p2 prv cur city) as [x|e]; cbn [bind];
    [|reflexivity].
  destruct (cost_ltb x (fst acc)); apply IH; intros y Hy; apply H;
    right; exact Hy.
Qed.

(** Two runs whose iterations agree on every state that satisfies the
    loop invariant give the same result. *)
Lemma while_ext (c1 c2 : list point) (p1 p2 : cost) :
  (forall s, loop_invariant matrix s ->
     loop_body c1 matrix p1 s = loop_body c2 matrix p2 s) ->
  forall s, loop_invariant matrix s ->
    while_unvisited c1 matrix p1 s = while_unvisited c2 matrix p2 s.
Proof.
  intros Hbody s. remember (length (unvisited s)) as k eqn:Ek.
  revert s Ek. induction k as [k IH] using lt_wf_ind. intros s Ek Hinv.
  rewrite !while_unvisited_step. pose proof (Hbody s Hinv) as Hb.
  destruct (unvisited s) as [|c rest] eqn:E; [reflexivity|].
  rewrite Hb.
  destruct (loop_body c2 matrix p2 s) as [s'|e] eqn:Eb; cbn [bind];
    [|reflexivity].
  apply (IH (length (unvisited s'))); [|reflexivity|].
  - subst k. rewrite <- E. eapply loop_body_shrinks. exact Eb.
  - eapply loop_body_preserves; eassumption.
Qed.

(** X4: with a penalty of 0 the coordinates play no role: two calls on
    the same matrix with any two coordinate lists of the right length give
    the same result (plain nearest neighbour). *)
Theorem solve_no_penalty_ignores_coords (c1 c2 : list point) :
  length c1 = length matrix -> length c2 = length matrix ->
  solve_tsp_nearest_neighbor_with_right_turn_penalty c1 matrix (Fin 0)
  = solve_tsp_nearest_neighbor_with_right_turn_penalty c2 matrix (Fin 0).
Proof.
  intros H1 H2. unfold solve_tsp_nearest_neighbor_with_right_turn_penalty.
  destruct matrix as [|row rows] eqn:Em.
  - rewrite !while_unvisited_step. reflexivity.
  - rewrite <- Em in *.
    rewrite (while_ext c1 c2 (Fin 0) (Fin 0)); [reflexivity| |].
    + intros s Hinv. unfold loop_body.
      rewrite (for_city_ext c1 c2 (Fin 0) (Fin 0)); [reflexivity|].
      intros city Hin.
      rewrite !candidate_cost_no_penalty by assumption. reflexivity.
    + apply initial_loop_invariant. rewrite Em. cbn. lia.
Qed.

End NoPenalty.

Lemma solve_no_penalty_ignores_coords_witness :
  solve_tsp_nearest_neighbor_with_right_turn_penalty
    coords_corner matrix_corner (Fin 0)
  = solve_tsp_nearest_neighbor_with_right_turn_penalty
    coords_island matrix_corner (Fin 0).
Proof.
  apply (solve_no_penalty_ignores_coords matrix_corner coords_corner
           coords_island); reflexivity.
Defined.

(** * Further properties of the turning angle *)

Section AngleGeometry.

Ltac split_signs :=
  repeat match goal with
         | |- context [Rlt_dec ?a ?b] => destruct (Rlt_dec a b)
         | |- context [Rle_dec ?a ?b] => destruct (Rle_dec a b)
         end.

(** The angle of a vector does not depend on its length. *)
Lemma atan2_scale (k y x : R) : 0 < k -> atan2 (k * y) (k * x) = atan2 y x.
Proof.
  intros Hk. unfold atan2.
  assert (Hq : x <> 0 -> k * y / (k * x) = y / x) by (intros; field; lra).
  split_signs; try (exfalso; nra); try reflexivity;
    rewrite Hq by lra; reflexivity.
Qed.

(** The opposite vector is half a turn away. *)
Lemma atan2_opp (y x : R) :
  x <> 0 \/ y <> 0 ->
  atan2 (- y) (- x) = atan2 y x + PI \/ atan2 (- y) (- x) = atan2 y x - PI.
Proof.
  intros Hne. unfold atan2.
  assert (Hq : x <> 0 -> - y / - x = y / x) by (intros; field; lra).
  split_signs; try (exfalso; lra); try rewrite Hq by lra;
    first [left; lra | right; lra].
Qed.

Lemma normalize_0 : normalize 0 = 0.
Proof. apply normalize_id. lra. Qed.

Lemma normalize_half_turn (a : R) :
  a = PI \/ a = - PI -> normalize (degrees a) = 180.
Proof.
  intros [-> | ->].
  - rewrite degrees_PI. apply normalize_id. lra.
  - rewrite degrees_opp, degrees_PI.
    apply (normalize_unique (-180) 180 1); [lra | simpl; lra].
Qed.

Lemma vector_nonzero (p1 p2 : point) :
  p1 <> p2 -> fst p1 - fst p2 <> 0 \/ snd p1 - snd p2 <> 0.
Proof.
  intros Hne.
  destruct (Req_dec (fst p1) (fst p2)) as [Hx|Hx]; [|left; lra].
  destruct (Req_dec (snd p1) (snd p2)) as [Hy|Hy]; [|right; lra].
  exfalso. apply Hne. destruct p1, p2. cbn in *. congruence.
Qed.

(** The real-number angle of a candidate straight ahead, on the line from
    the previous point through the vertex. *)
Lemma calculate_angle_ahead (p1 p2 : point) (k : R) :
  0 < k -> p1 <> p2 ->
  calculate_angle p1 p2 (fst p2 + k * (fst p2 - fst p1),
                         snd p2 + k * (snd p2 - snd p1)) = 180.
Proof.
  intros Hk Hne. rewrite calculate_angle_normalize. cbn [fst snd].
  replace (snd p2 + k * (snd p2 - snd p1) - snd p2)
    with (k * - (snd p1 - snd p2)) by lra.
  replace (fst p2 + k * (fst p2 - fst p1) - fst p2)
    with (k * - (fst p1 - fst p2)) by lra.
  rewrite atan2_scale by assumption.
  apply normalize_half_turn.
  destruct (atan2_opp _ _ (vector_nonzero p1 p2 Hne)) as [-> | ->];
    [left | right]; lra.
Qed.

(** The real-number angle of a candidate back towards the previous
    point. *)
Lemma calculate_angle_back (p1 p2 : point) (k : R) :
  0 < k ->
  calculate_angle p1 p2 (fst p2 + k * (fst p1 - fst p2),
                         snd p2 + k * (snd p1 - snd p2)) = 0.
Proof.
  intros Hk. rewrite calculate_angle_normalize. cbn [fst snd].
  replace (snd p2 + k * (snd p1 - snd p2) - snd p2)
    with (k * (snd p1 - snd p2)) by lra.
  replace (fst p2 + k * (fst p1 - fst p2) - fst p2)
    with (k * (fst p1 - fst p2)) by lra.
  rewrite atan2_scale by assumption.
  replace (atan2 (snd p1 - snd p2) (fst p1 - fst p2)
           - atan2 (snd p1 - snd p2) (fst p1 - fst p2)) with 0 by lra.
  unfold degrees. rewrite Rmult_0_l. apply normalize_0.
Qed.

(** X6: a candidate straight ahead (on the line from the previous point
    through the vertex, beyond the vertex) is never classified as a right
    turn, and neither is a candidate back towards the previous point, at
    any distance. *)
Theorem straight_and_back_no_right_turn (p1 p2 : point) (k : R) :
  0 < k ->
  right_turn
    (calculate_angle p1 p2 (fst p2 + k * (fst p2 - fst p1),
                            snd p2 + k * (snd p2 - snd p1))) = false /\
  right_turn
    (calculate_angle p1 p2 (fst p2 + k * (fst p1 - fst p2),
                            snd p2 + k * (snd p1 - snd p2))) = false.
Proof.
  intros Hk. split.
  - destruct (Req_dec (fst p1) (fst p2)) as [Hx|Hx];
      [destruct (Req_dec (snd p1) (snd p2)) as [Hy|Hy]|].
    + destruct p1 as [x1 y1], p2 as [x2 y2]. cbn [fst snd] in *. subst.
      pose proof (calculate_angle_back (x2, y2) (x2, y2) k Hk) as E.
      cbn [fst snd] in E. rewrite E. apply right_turn_false. lra.
    + rewrite calculate_angle_ahead;
        [apply right_turn_false; lra | assumption |].
      intros ->. apply Hy. reflexivity.
    + rewrite calculate_angle_ahead;
        [apply right_turn_false; lra | assumption |].
      intros ->. apply Hx. reflexivity.
  - rewrite calculate_angle_back by assumption. apply right_turn_false. lra.
Qed.

Lemma straight_and_back_no_right_turn_witness :
  right_turn
    (calculate_angle (0, 1) (0, 0) (0 + 2 * (0 - 0), 0 + 2 * (0 - 1)))
  = false.
Proof.
  destruct (straight_and_back_no_right_turn (0, 1) (0, 0) 2)
    as [Hstraight _]; [lra|].
  exact Hstraight.
Defined.

End AngleGeometry.

Section QuarterTurn.

(** [atan (b / a)] from [atan (a / b)], by the sign of the quotient. *)
Lemma atan_swap_pos (a b : R) :
  0 < a / b -> b <> 0 -> atan (b / a) = PI / 2 - atan (a / b).
Proof.
  intros Hq Hb.
  assert (Ha : a <> 0) by (intros ->; unfold Rdiv in Hq; lra).
  replace (b / a) with (/ (a / b)) by (field; split; assumption).
  apply atan_inv. exact Hq.
Qed.

Lemma atan_swap_neg (a b : R) :
  a / b < 0 -> b <> 0 -> atan (b / a) = - (PI / 2) - atan (a / b).
Proof.
  intros Hq Hb.
  assert (Ha : a <> 0) by (intros ->; unfold Rdiv in Hq; lra).
  replace (b / a) with (- (/ (- (a / b)))) by (field; split; assumption).
  rewrite atan_opp, atan_inv by lra. rewrite atan_opp. lra.
Qed.

Lemma div_pos (a b : R) :
  (0 < a /\ 0 < b) \/ (a < 0 /\ b < 0) -> 0 < a / b.
Proof.
  unfold Rdiv. intros [[Ha Hb] | [Ha Hb]].
  - apply Rmult_lt_0_compat; [lra | apply Rinv_0_lt_compat; lra].
  - replace (a * / b) with ((- a) * / (- b)) by (field; lra).
    apply Rmult_lt_0_compat; [lra | apply Rinv_0_lt_compat; lra].
Qed.

Lemma div_neg (a b : R) :
  (0 < a /\ b < 0) \/ (a < 0 /\ 0 < b) -> a / b < 0.
Proof.
  unfold Rdiv. intros [[Ha Hb] | [Ha Hb]].
  - replace (a * / b) with (- (a * / (- b))) by (field; lra).
    assert (0 < a * / - b)
      by (apply Rmult_lt_0_compat; [lra | apply Rinv_0_lt_compat; lra]).
    lra.
  - replace (a * / b) with (- ((- a) * / b)) by (field; lra).
    assert (0 < - a * / b)
      by (apply Rmult_lt_0_compat; [lra | apply Rinv_0_lt_compat; lra]).
    lra.
Qed.

(** The vector turned by a quarter turn, [(x, y)] to [(y, -x)], is a
    quarter turn behind, up to a whole turn. *)
Lemma atan2_quarter (y x : R) :
  x <> 0 \/ y <> 0 ->
  atan2 (- x) y = atan2 y x - PI / 2 \/
  atan2 (- x) y = atan2 y x - PI / 2 + 2 * PI.
Proof.
  intros Hne. unfold atan2.
  destruct (Rlt_dec 0 y) as [Hy|Hy].
  - (* y > 0 *)
    destruct (Rlt_dec 0 x) as [Hx|Hx].
    + left. replace (- x / y) with (- (x / y)) by (field; lra).
      rewrite atan_opp, (atan_swap_pos x y); [lra | | lra].
      apply div_pos; lra.
    + destruct (Rlt_dec x 0) as [Hx'|Hx'].
      * destruct (Rle_dec 0 y); [|lra]. left.
        replace (- x / y) with (- (x / y)) by (field; lra).
        rewrite atan_opp, (atan_swap_neg x y); [lra | | lra].
        apply div_neg; lra.
      * assert (x = 0) by lra. subst x. left.
        replace (- 0 / y) with 0 by (field; lra). rewrite atan_0. lra.
  - destruct (Rlt_dec y 0) as [Hy'|Hy'].
    + (* y < 0 *)
      destruct (Rle_dec 0 (- x)) as [Hnx|Hnx].
      * destruct (Rlt_dec 0 x) as [Hx|Hx]; [lra|].
        destruct (Rlt_dec x 0) as [Hx'|Hx'].
        -- destruct (Rle_dec 0 y); [lra|]. right.
           replace (- x / y) with (- (x / y)) by (field; lra).
           rewrite atan_opp, (atan_swap_pos x y); [lra | | lra].
           apply div_pos; lra.
        -- assert (x = 0) by lra. subst x. right.
           replace (- 0 / y) with 0 by (field; lra). rewrite atan_0. lra.
      * destruct (Rlt_dec 0 x) as [Hx|Hx]; [|lra]. left.
        replace (- x / y) with (- (x / y)) by (field; lra).
        rewrite atan_opp, (atan_swap_neg x y); [lra | | lra].
        apply div_neg; lra.
    + (* y = 0 *)
      assert (y = 0) by lra. subst y.
      destruct (Rlt_dec 0 (- x)) as [Hnx|Hnx].
      * destruct (Rlt_dec 0 x); [lra|]. destruct (Rlt_dec x 0); [|lra].
        destruct (Rle_dec 0 0); [|lra]. left.
        replace (0 / x) with 0 by (field; lra). rewrite atan_0. lra.
      * destruct (Rlt_dec (- x) 0) as [Hnx'|Hnx'].
        -- destruct (Rlt_dec 0 x); [|lra]. left.
           replace (0 / x) with 0 by (field; lra). rewrite atan_0. lra.
        -- exfalso. destruct Hne; lra.
Qed.

Lemma degrees_linear (a b : R) : degrees (a + b) = degrees a + degrees b.
Proof. unfold degrees. lra. Qed.

Lemma degrees_2PI : degrees (2 * PI) = 360.
Proof. unfold degrees. field. apply PI_neq0. Qed.

(** The real-number angle of a candidate a quarter turn to the right of
    the way ahead, at [p2 + k * (dy, - dx)] for [(dx, dy) = p1 - p2], as in
    the corner A = (0,1), B = (0,0), C = (1,0). *)
Lemma calculate_angle_quarter_right (p1 p2 : point) (k : R) :
  0 < k -> p1 <> p2 ->
  calculate_angle p1 p2 (fst p2 + k * (snd p1 - snd p2),
                         snd p2 + k * - (fst p1 - fst p2)) = -90.
Proof.
  intros Hk Hne. rewrite calculate_angle_normalize. cbn [fst snd].
  replace (snd p2 + k * - (fst p1 - fst p2) - snd p2)
    with (k * - (fst p1 - fst p2)) by lra.
  replace (fst p2 + k * (snd p1 - snd p2) - fst p2)
    with (k * (snd p1 - snd p2)) by lra.
  rewrite atan2_scale by assumption.
  destruct (atan2_quarter _ _ (vector_nonzero p1 p2 Hne)) as [-> | ->].
  - replace (atan2 (snd p1 - snd p2) (fst p1 - fst p2) - PI / 2
             - atan2 (snd p1 - snd p2) (fst p1 - fst p2))
      with (- (PI / 2)) by lra.
    rewrite degrees_opp, degrees_half_PI. apply normalize_id. lra.
  - replace (atan2 (snd p1 - snd p2) (fst p1 - fst p2) - PI / 2 + 2 * PI
             - atan2 (snd p1 - snd p2) (fst p1 - fst p2))
      with (- (PI / 2) + 2 * PI) by lra.
    rewrite degrees_linear, degrees_opp, degrees_half_PI, degrees_2PI.
    apply (normalize_unique _ _ (-1)); [lra | simpl; lra].
Qed.

(** The same on the other side, at [p2 + k * (- dy, dx)]. *)
Lemma calculate_angle_quarter_left (p1 p2 : point) (k : R) :
  0 < k -> p1 <> p2 ->
  calculate_angle p1 p2 (fst p2 + k * - (snd p1 - snd p2),
                         snd p2 + k * (fst p1 - fst p2)) = 90.
Proof.
  intros Hk Hne. rewrite calculate_angle_normalize. cbn [fst snd].
  replace (snd p2 + k * (fst p1 - fst p2) - snd p2)
    with (k * (fst p1 - fst p2)) by lra.
  replace (fst p2 + k * - (snd p1 - snd p2) - fst p2)
    with (k * - (snd p1 - snd p2)) by lra.
  rewrite atan2_scale by assumption.
  assert (Hv : - (snd p1 - snd p2) <> 0 \/ fst p1 - fst p2 <> 0)
    by (destruct (vector_nonzero p1 p2 Hne); [right | left]; lra).
  pose proof (atan2_quarter _ _ Hv) as Hq.
  rewrite Ropp_involutive in Hq.
  destruct Hq as [Hq | Hq]; rewrite Hq.
  - replace (atan2 (fst p1 - fst p2) (- (snd p1 - snd p2))
             - (atan2 (fst p1 - fst p2) (- (snd p1 - snd p2)) - PI / 2))
      with (PI / 2) by lra.
    rewrite degrees_half_PI. apply normalize_id. lra.
  - replace (atan2 (fst p1 - fst p2) (- (snd p1 - snd p2))
             - (atan2 (fst p1 - fst p2) (- (snd p1 - snd p2)) - PI / 2
                + 2 * PI))
      with (PI / 2 + - (2 * PI)) by lra.
    rewrite degrees_linear, degrees_opp, degrees_half_PI, degrees_2PI.
    apply (normalize_unique _ _ 1); [lra | simpl; lra].
Qed.

(** X7: the test for a right turn tells the two sides apart.  A candidate
    a quarter turn to the right of the way ahead -- at
    [p2 + k * (dy, - dx)] for [(dx, dy) = p1 - p2], as in the corner
    A = (0,1), B = (0,0), C = (1,0) -- is classified as a right turn at any
    distance; the candidate opposite to it, at [p2 + k * (- dy, dx)], is
    not. *)
Theorem quarter_turn_right_turn (p1 p2 : point) (k : R) :
  0 < k -> p1 <> p2 ->
  right_turn
    (calculate_angle p1 p2 (fst p2 + k * (snd p1 - snd p2),
                            snd p2 + k * - (fst p1 - fst p2))) = true /\
  right_turn
    (calculate_angle p1 p2 (fst p2 + k * - (snd p1 - snd p2),
                            snd p2 + k * (fst p1 - fst p2))) = false.
Proof.
  intros Hk Hne. split.
  - rewrite calculate_angle_quarter_right by assumption.
    apply right_turn_true. lra.
  - rewrite calculate_angle_quarter_left by assumption.
    apply right_turn_false. lra.
Qed.

Lemma quarter_turn_right_turn_witness :
  right_turn
    (calculate_angle (0, 1) (0, 0) (0 + 3 * (1 - 0), 0 + 3 * - (0 - 0)))
  = true.
Proof.
  apply (quarter_turn_right_turn (0, 1) (0, 0) 3); [lra|].
  intros E. injection E as E. lra.
Defined.

End QuarterTurn.

(** * Tag stripping *)

Section StripTags.
Import Service Markup.
Import String Ascii.
#[local] Open Scope list_scope.
#[local] Open Scope string_scope.

(** The search unfolds as the regular expression reads. *)
Lemma strip_tags_cases (s : string) :
  strip_tags s =
  match s with
  | EmptyString => EmptyString
  | String c rest =>
      match (if Ascii.eqb c "<" then match_tag rest else None) with
      | Some after => strip_tags after
      | None => String c (strip_tags rest)
      end
  end.
Proof.
  funelim (strip_tags s); [reflexivity | |];
    match goal with E : (if _ then _ else _) = _ |- _ => rewrite E end;
    reflexivity.
Qed.

Lemma strip_tags_step (c : ascii) (rest : string) :
  strip_tags (String c rest) =
  match (if Ascii.eqb c "<" then match_tag rest else None) with
  | Some after => strip_tags after
  | None => String c (strip_tags rest)
  end.
Proof. apply (strip_tags_cases (String c rest)). Qed.

Lemma scan_tag_suffix (t u : string) :
  scan_tag t = Some u ->
  (String.length u < String.length t)%nat /\
  forall a, subsequence a u -> subsequence a t.
Proof.
  revert u. induction t as [|d t IH]; intros u H; cbn in H; [discriminate|].
  destruct (Ascii.eqb d ">").
  - injection H as <-. split; [cbn; lia|].
    intros a Ha. apply subsequence_skip. exact Ha.
  - destruct (Ascii.eqb d "<"); [discriminate|].
    destruct (IH u H) as [Hlen Hsub]. split; [cbn; lia|].
    intros a Ha. apply subsequence_skip. apply Hsub. exact Ha.
Qed.

Lemma match_tag_suffix (t u : string) :
  match_tag t = Some u ->
  (String.length u < String.length t)%nat /\
  forall a, subsequence a u -> subsequence a t.
Proof.
  destruct t as [|d t]; cbn; [discriminate|].
  destruct (Ascii.eqb d "<"); [discriminate|]. intros H.
  destruct (scan_tag_suffix t u H) as [Hlen Hsub]. split; [lia|].
  intros a Ha. apply subsequence_skip. apply Hsub. exact Ha.
Qed.

(** X8: stripping only deletes: the result is the text with some
    characters removed, in the same order, and is never longer. *)
Theorem strip_tags_subsequence (s : string) :
  subsequence (strip_tags s) s /\
  (String.length (strip_tags s) <= String.length s)%nat.
Proof.
  remember (String.length s) as k eqn:Ek.
  revert s Ek. induction k as [k IH] using lt_wf_ind. intros s Ek.
  destruct s as [|c rest].
  - rewrite strip_tags_cases. split; [constructor | cbn; lia].
  - rewrite strip_tags_step.
    destruct (if Ascii.eqb c "<" then match_tag rest else None)
      as [after|] eqn:E.
    + destruct (Ascii.eqb c "<"); [|discriminate].
      destruct (match_tag_suffix rest after E) as [Hlen Hsub].
      destruct (IH (String.length after)) with (s := after) as [H1 H2];
        [subst k; cbn; lia | reflexivity |].
      split; [|subst k; cbn; lia].
      apply subsequence_skip. apply Hsub. exact H1.
    + destruct (IH (String.length rest)) with (s := rest) as [H1 H2];
        [subst k; cbn; lia | reflexivity |].
      split; [|subst k; cbn; lia]. apply subsequence_keep. exact H1.
Qed.

(** A stretch of text without [<] is copied. *)
Lemma strip_tags_text (t rest : string) :
  contains "<" t = false -> strip_tags (t ++ rest) = t ++ strip_tags rest.
Proof.
  induction t as [|c t IH]; intros H; [reflexivity|].
  cbn in H. cbn [append]. rewrite strip_tags_step.
  destruct (Ascii.eqb c "<"); [discriminate|].
  rewrite IH by exact H. reflexivity.
Qed.

Lemma scan_tag_body (body rest : string) :
  contains "<" body = false -> contains ">" body = false ->
  scan_tag (body ++ String ">" rest) = Some rest.
Proof.
  induction body as [|c body IH]; intros Hlt Hgt; [reflexivity|].
  cbn in Hlt, Hgt |- *.
  destruct (Ascii.eqb c ">"); [discriminate|].
  destruct (Ascii.eqb c "<"); [discriminate|].
  apply IH; assumption.
Qed.

(** A tag with a body is deleted whole. *)
Lemma strip_tags_tag (body rest : string) :
  body <> EmptyString ->
  contains "<" body = false -> contains ">" body = false ->
  strip_tags (String "<" (body ++ String ">" rest)) = strip_tags rest.
Proof.
  intros Hne Hlt Hgt. rewrite strip_tags_step. cbn [Ascii.eqb Bool.eqb].
  destruct body as [|c body]; [congruence|].
  cbn in Hlt, Hgt |- *.
  destruct (Ascii.eqb c "<"); [discriminate|].
  destruct (Ascii.eqb c ">"); [discriminate|].
  rewrite scan_tag_body by assumption. reflexivity.
Qed.

Lemma append_assoc (a b c : string) : (a ++ b) ++ c = a ++ (b ++ c).
Proof. induction a as [|x a IH]; cbn; [reflexivity | rewrite IH; reflexivity]. Qed.

Lemma append_empty_r (a : string) : a ++ "" = a.
Proof. induction a as [|x a IH]; cbn; [reflexivity | rewrite IH; reflexivity]. Qed.

(** X9: on text made of plain stretches (without [<]) and tags with a
    non-empty body (without [<] and [>]), stripping returns exactly the
    plain stretches, in order; and text without any [<] is returned
    unchanged. *)
Theorem strip_tags_markup (ps : list piece) :
  Forall well_formed ps ->
  strip_tags (render ps) = text_of ps /\
  (forall t, contains "<" t = false -> strip_tags t = t).
Proof.
  intros Hwf. split.
  - induction ps as [|p ps IH]; [reflexivity|].
    inversion Hwf as [|p' ps' Hp Hps]; subst. specialize (IH Hps).
    destruct p as [t|body]; cbn [render render_piece text_of].
    + rewrite strip_tags_text by exact Hp. rewrite IH. reflexivity.
    + destruct Hp as (Hne & Hlt & Hgt).
      cbn [append]. rewrite append_assoc. cbn [append].
      rewrite strip_tags_tag by assumption. exact IH.
  - intros t Ht. rewrite <- (append_empty_r t) at 1.
    rewrite strip_tags_text by exact Ht.
    rewrite (strip_tags_cases ""). apply append_empty_r.
Qed.

Lemma strip_tags_markup_witness :
  strip_tags "Turn <b>left</b> onto <b>Main St</b>"
  = "Turn left onto Main St".
Proof.
  apply (strip_tags_markup
           [Text "Turn "; Tag "b"; Text "left"; Tag "/b"; Text " onto ";
            Tag "b"; Text "Main St"; Tag "/b"]).
  repeat constructor; cbn; congruence.
Defined.

(** X10: a [<] that no [>] closes before the next [<] or the end of the
    text is kept, and so is the empty tag [<>]: for text [t] without [<]
    and [>], both [<t] and [<>t] are returned unchanged. *)
Theorem strip_tags_unclosed (t : string) :
  contains "<" t = false -> contains ">" t = false ->
  strip_tags (String "<" t) = String "<" t /\
  strip_tags (String "<" (String ">" t)) = String "<" (String ">" t).
Proof.
  intros Hlt Hgt.
  assert (Hscan : scan_tag t = None).
  { clear Hlt. induction t as [|c t IH]; [reflexivity|].
    cbn in Hgt |- *. destruct (Ascii.eqb c ">"); [discriminate|].
    destruct (Ascii.eqb c "<"); [reflexivity | apply IH; exact Hgt]. }
  assert (Hplain : forall u, contains "<" u = false -> strip_tags u = u).
  { intros u Hu. rewrite <- (append_empty_r u) at 1.
    rewrite strip_tags_text by exact Hu. cbn. apply append_empty_r. }
  split; rewrite strip_tags_step; cbn [Ascii.eqb Bool.eqb].
  - assert (Hm : match_tag t = None).
    { destruct t as [|c t]; [reflexivity|]. cbn in Hlt, Hgt, Hscan |- *.
      destruct (Ascii.eqb c "<"); [reflexivity|].
      destruct (Ascii.eqb c ">"); [discriminate | exact Hscan]. }
    rewrite Hm, Hplain by exact Hlt. reflexivity.
  - cbn [match_tag Ascii.eqb Bool.eqb]. rewrite Hscan.
    rewrite Hplain; [reflexivity|]. cbn. exact Hlt.
Qed.

Lemma strip_tags_unclosed_witness :
  strip_tags "<>" = "<>" /\ strip_tags "<5 km" = "<5 km".
Proof.
  split.
  - apply (strip_tags_unclosed ""); reflexivity.
  - apply (strip_tags_unclosed "5 km"); reflexivity.
Defined.

End StripTags.

(** * The distance matrix *)

Section ArrayUpdate.
Import Extras Service.

Lemma setitem_inv {A : Type} (l l' : list A) (i : nat) (v : A) :
  setitem l i v = Ok l' ->
  (i < length l)%nat /\ length l' = length l /\
  forall j, nth_error l' j = if (j =? i)%nat then Some v else nth_error l j.
Proof.
  unfold setitem. destruct (i <? length l)%nat eqn:E; [|discriminate].
  apply Nat.ltb_lt in E. intros H.
  assert (E' : l' = firstn i l ++ v :: skipn (S i) l) by congruence.
  subst l'. clear H.
  split; [exact E|]. split.
  - rewrite length_app, length_firstn. cbn [length]. rewrite length_skipn.
    lia.
  - intros j. destruct (j =? i)%nat eqn:Ej.
    + apply Nat.eqb_eq in Ej. subst j.
      rewrite nth_error_app2 by (rewrite length_firstn; lia).
      rewrite length_firstn.
      replace (i - Nat.min i (length l))%nat with 0%nat by lia. reflexivity.
    + apply Nat.eqb_neq in Ej.
      destruct (Nat.lt_ge_cases j i) as [Hlt|Hge].
      * rewrite nth_error_app1 by (rewrite length_firstn; lia).
        rewrite nth_error_firstn.
        destruct (j <? i)%nat eqn:Eji; [reflexivity|].
        apply Nat.ltb_ge in Eji. lia.
      * rewrite nth_error_app2 by (rewrite length_firstn; lia).
        rewrite length_firstn.
        replace (j - Nat.min i (length l))%nat with (S (j - S i)) by lia.
        cbn [nth_error]. rewrite nth_error_skipn. f_equal. lia.
Qed.

Lemma setitem_fail {A : Type} (l : list A) (i : nat) (v : A) :
  (length l <= i)%nat -> setitem l i v = Raise IndexError.
Proof.
  intros H. unfold setitem.
  destruct (i <? length l)%nat eqn:E; [|reflexivity].
  apply Nat.ltb_lt in E. lia.
Qed.

Lemma setitem_ok {A : Type} (l : list A) (i : nat) (v : A) :
  (i < length l)%nat -> exists l', setitem l i v = Ok l'.
Proof.
  intros H. unfold setitem.
  destruct (i <? length l)%nat eqn:E; [eauto|].
  apply Nat.ltb_ge in E. lia.
Qed.

Lemma getitem_nth {A : Type} (l : list A) (i : nat) (a : A) :
  getitem l i = Ok a <-> nth_error l i = Some a.
Proof.
  unfold getitem. destruct (nth_error l i); split; intros H;
    try discriminate; congruence.
Qed.

Lemma square_row (n : nat) (m : list (list cost)) (i : nat)
    (row : list cost) :
  square n m -> nth_error m i = Some row -> length row = n.
Proof.
  intros [_ Hrows] H. rewrite Forall_forall in Hrows. apply Hrows.
  eapply nth_error_In. exact H.
Qed.

(** [matrix[i][j] = v] on an [n] by [n] matrix: the subscripts must be in
    range, and exactly one cell changes. *)
Lemma set_entry_inv (n : nat) (m m' : list (list cost)) (i j : nat)
    (v : cost) :
  square n m -> set_entry m i j v = Ok m' ->
  (i < n)%nat /\ (j < n)%nat /\ square n m' /\
  forall i' j',
    entry m' i' j' =
    if ((i' =? i) && (j' =? j))%nat%bool then Ok v else entry m i' j'.
Proof.
  intros Hsq H. unfold set_entry in H.
  destruct (getitem m i) as [row|e] eqn:Erow; cbn [bind] in H;
    [|discriminate].
  apply getitem_nth in Erow.
  destruct (setitem row j v) as [row'|e] eqn:Eset; cbn [bind] in H;
    [|discriminate].
  apply setitem_inv in Eset as (Hj & Hlen' & Hrow').
  apply setitem_inv in H as (Hi & Hlen & Hm').
  pose proof (square_row n m i row Hsq Erow) as Hrow.
  destruct Hsq as [Hn Hrows].
  split; [lia|]. split; [lia|]. split.
  - split; [lia|]. apply Forall_forall. intros r Hr.
    apply In_nth_error in Hr as [k Hk]. rewrite Hm' in Hk.
    destruct (k =? i)%nat.
    + injection Hk as <-. lia.
    + rewrite Forall_forall in Hrows. apply Hrows.
      eapply nth_error_In. exact Hk.
  - intros i' j'. unfold entry, getitem. rewrite Hm'.
    destruct (i' =? i)%nat eqn:Ei; cbn [andb bind].
    + rewrite Hrow'. apply Nat.eqb_eq in Ei. subst i'. rewrite Erow.
      cbn [bind]. destruct (j' =? j)%nat; reflexivity.
    + reflexivity.
Qed.

Lemma set_entry_ok (n : nat) (m : list (list cost)) (i j : nat) (v : cost) :
  square n m -> (i < n)%nat -> (j < n)%nat ->
  exists m', set_entry m i j v = Ok m'.
Proof.
  intros Hsq Hi Hj. unfold set_entry.
  destruct (getitem_lt_ok m i) as [row Hrow]; [destruct Hsq; lia|].
  rewrite Hrow. cbn [bind].
  pose proof (square_row n m i row Hsq (proj1 (getitem_nth _ _ _) Hrow))
    as Hlen.
  destruct (setitem_ok row j v) as [row' ->]; [lia|]. cbn [bind].
  apply setitem_ok. destruct Hsq; lia.
Qed.

Lemma set_entry_fail (n : nat) (m : list (list cost)) (i j : nat)
    (v : cost) :
  square n m -> (n <= i)%nat \/ (n <= j)%nat ->
  set_entry m i j v = Raise IndexError.
Proof.
  intros Hsq Hout. unfold set_entry, getitem.
  destruct (nth_error m i) as [row|] eqn:Erow; cbn [bind]; [|reflexivity].
  pose proof (square_row n m i row Hsq Erow) as Hlen.
  assert (Hi : (i < length m)%nat) by (apply nth_error_Some; congruence).
  destruct Hsq as [Hn _].
  rewrite setitem_fail by lia. reflexivity.
Qed.

Lemma zeros_square (n : nat) : square n (zeros n).
Proof.
  unfold zeros. split; [apply repeat_length|].
  apply Forall_forall. intros row Hrow. apply repeat_spec in Hrow.
  subst row. apply repeat_length.
Qed.

Lemma zeros_entry (n i j : nat) :
  (i < n)%nat -> (j < n)%nat -> entry (zeros n) i j = Ok (Fin 0).
Proof.
  intros Hi Hj. unfold entry, zeros, getitem.
  rewrite nth_error_repeat by exact Hi. cbn [bind].
  rewrite nth_error_repeat by exact Hj. reflexivity.
Qed.

End ArrayUpdate.

Section DistanceMatrix.
Import Extras Service Wire.

Lemma fill_element_reported (i j : nat) (m : list (list cost))
    (e : element) :
  fill_element i j m e =
  match reported e with
  | Some c => set_entry m i j c
  | None => Raise KeyError
  end.
Proof.
  unfold fill_element, reported.
  destruct (status e) as [st|]; cbn [key bind]; [|reflexivity].
  destruct (String.eqb st _); [|reflexivity].
  destruct (distance_value e); reflexivity.
Qed.

(** What a row of the response has written when its loop ends. *)
Lemma fill_row_inv (n i : nat) (es : list element) :
  forall (j0 : nat) (m m' : list (list cost)),
  square n m -> fill_row i j0 m es = Ok m' ->
  square n m' /\
  (es = [] \/ ((i < n)%nat /\ (j0 + length es <= n)%nat)) /\
  (forall k e, nth_error es k = Some e ->
     exists c, reported e = Some c /\ entry m' i (j0 + k) = Ok c) /\
  (forall i' j',
     i' <> i \/ (j' < j0)%nat \/ (j0 + length es <= j')%nat ->
     entry m' i' j' = entry m i' j').
Proof.
  induction es as [|e rest IH]; intros j0 m m' Hsq H.
  - cbn in H. injection H as <-. split; [exact Hsq|]. split; [auto|].
    split; [intros [|k] e Hk; discriminate | reflexivity].
  - cbn [fill_row] in H. rewrite fill_element_reported in H.
    destruct (reported e) as [c|] eqn:Ec; [|discriminate].
    destruct (set_entry m i j0 c) as [m1|x] eqn:Eset; cbn [bind] in H;
      [|discriminate].
    apply (set_entry_inv n) in Eset as (Hi & Hj & Hsq1 & Hm1); [|exact Hsq].
    destruct (IH (S j0) m1 m' Hsq1 H) as (Hsq' & Hfit & Hcells & Hkeep).
    split; [exact Hsq'|]. split; [|split].
    + right. split; [exact Hi|]. cbn [length].
      destruct Hfit as [-> | [_ Hfit]]; cbn [length]; lia.
    + intros [|k] e' Hk.
      * cbn in Hk. injection Hk as <-. exists c. split; [exact Ec|].
        rewrite Nat.add_0_r, Hkeep by lia. rewrite Hm1, !Nat.eqb_refl.
        reflexivity.
      * cbn in Hk. destruct (Hcells k e' Hk) as (c' & Hc' & He').
        exists c'. split; [exact Hc'|].
        replace (j0 + S k)%nat with (S j0 + k)%nat by lia. exact He'.
    + intros i' j' Hout. cbn [length] in Hout.
      rewrite Hkeep by lia. rewrite Hm1.
      destruct (i' =? i)%nat eqn:Ei; [|reflexivity].
      destruct (j' =? j0)%nat eqn:Ej; [|reflexivity].
      apply Nat.eqb_eq in Ei. apply Nat.eqb_eq in Ej. lia.
Qed.

(** What the rows of the response have written when the loops end. *)
Lemma fill_rows_inv (n : nat) (rs : list row_json) :
  forall (i0 : nat) (m m' : list (list cost)),
  square n m -> fill_rows i0 m rs = Ok m' ->
  square n m' /\
  (forall k j e, response_cell rs k j = Some e ->
     exists c, reported e = Some c /\ entry m' (i0 + k) j = Ok c) /\
  (forall i' j',
     (i' < i0)%nat \/ response_cell rs (i' - i0) j' = None ->
     entry m' i' j' = entry m i' j').
Proof.
  induction rs as [|r rest IH]; intros i0 m m' Hsq H.
  - cbn in H. injection H as <-. split; [exact Hsq|].
    split; [intros [|k] j e Hk; discriminate | reflexivity].
  - cbn [fill_rows] in H.
    destruct (elements r) as [es|] eqn:Ees; cbn [key bind] in H;
      [|discriminate].
    destruct (fill_row i0 0 m es) as [m1|x] eqn:Erow; cbn [bind] in H;
      [|discriminate].
    destruct (fill_row_inv n i0 es 0 m m1 Hsq Erow)
      as (Hsq1 & _ & Hcells1 & Hkeep1).
    destruct (IH (S i0) m1 m' Hsq1 H) as (Hsq' & Hcells & Hkeep).
    split; [exact Hsq'|]. split.
    + intros [|k] j e Hk.
      * unfold response_cell in Hk. cbn [nth_error] in Hk.
        rewrite Ees in Hk. destruct (Hcells1 j e Hk) as (c & Hc & He).
        exists c. split; [exact Hc|].
        rewrite Nat.add_0_r, Hkeep by (left; lia). exact He.
      * assert (Hk' : response_cell rest k j = Some e) by exact Hk.
        destruct (Hcells k j e Hk') as (c & Hc & He).
        exists c. split; [exact Hc|].
        replace (i0 + S k)%nat with (S i0 + k)%nat by lia. exact He.
    + intros i' j' Hout.
      destruct (Nat.lt_trichotomy i' i0) as [Hlt | [Heq | Hgt]].
      * rewrite Hkeep by (left; lia). apply Hkeep1. left. lia.
      * subst i'. rewrite Hkeep by (left; lia).
        destruct Hout as [Hout | Hout]; [lia|].
        rewrite Nat.sub_diag in Hout. unfold response_cell in Hout.
        cbn [nth_error] in Hout. rewrite Ees in Hout.
        apply nth_error_None in Hout. apply Hkeep1. right. right. lia.
      * destruct Hout as [Hout | Hout]; [lia|].
        replace (i' - i0)%nat with (S (i' - S i0)) in Hout by lia.
        assert (Hout' : response_cell rest (i' - S i0) j' = None)
          by exact Hout.
        rewrite Hkeep by (right; exact Hout'). apply Hkeep1. left. lia.
Qed.

(** X11: a matrix returned by [get_distance_matrix] has one row and one
    column per coordinate pair; the cell of an element of the response
    holds its distance when its status is OK and [+inf] otherwise, and a
    cell the response has no element for holds 0. *)
Theorem get_distance_matrix_cells (coords : list point) (data : matrix_json)
    (m : list (list cost)) :
  get_distance_matrix coords (Json data) = Ok (Some m) ->
  exists rs,
    rows data = Some rs /\
    square (length coords) m /\
    forall i j, (i < length coords)%nat -> (j < length coords)%nat ->
      match response_cell rs i j with
      | Some e => exists c, reported e = Some c /\ entry m i j = Ok c
      | None => entry m i j = Ok (Fin 0)
      end.
Proof.
  unfold get_distance_matrix. destruct coords as [|p coords]; [discriminate|].
  set (n := length (p :: coords)).
  destruct (rows data) as [rs|]; cbn [key bind]; [|discriminate].
  destruct (fill_rows 0 (zeros n) rs) as [m'|e] eqn:E; cbn [bind];
    [|discriminate].
  intros H. injection H as <-. exists rs. split; [reflexivity|].
  destruct (fill_rows_inv n rs 0 (zeros n) m' (zeros_square n) E)
    as (Hsq & Hcells & Hkeep).
  split; [exact Hsq|]. intros i j Hi Hj.
  destruct (response_cell rs i j) as [e|] eqn:Ecell.
  - apply (Hcells i j e Ecell).
  - rewrite Hkeep by (right; rewrite Nat.sub_0_r; exact Ecell).
    apply zeros_entry; assumption.
Qed.

End DistanceMatrix.

Lemma get_distance_matrix_cells_witness :
  Notions.entry [[Fin 0; PInf]; [PInf; Fin 0]] 1 1 = Ok (Fin 0).
Proof.
  destruct (get_distance_matrix_cells coords_apart Wire.response_apart
              [[Fin 0; PInf]; [PInf; Fin 0]] eq_refl)
    as (rs & Hrows & _ & Hcells).
  injection Hrows as <-.
  apply (Hcells 1%nat 1%nat); cbn; lia.
Defined.

Section DistanceMatrixOutcome.
Import Extras Service Wire.

Lemma fill_row_total (n i : nat) (es : list element) :
  forall (j0 : nat) (m : list (list cost)),
  square n m -> Forall (fun e => reported e <> None) es ->
  es = [] \/ ((i < n)%nat /\ (j0 + length es <= n)%nat) ->
  exists m', fill_row i j0 m es = Ok m'.
Proof.
  induction es as [|e rest IH]; intros j0 m Hsq Hall Hfit;
    [eexists; reflexivity|].
  destruct Hfit as [Hnil | [Hi Hj]]; [discriminate|]. cbn [length] in Hj.
  inversion Hall as [|e' rest' He Hrest]; subst.
  cbn [fill_row]. rewrite fill_element_reported.
  destruct (reported e) as [c|]; [|congruence].
  destruct (set_entry_ok n m i j0 c Hsq Hi) as [m1 Hm1]; [lia|].
  rewrite Hm1. cbn [bind].
  apply (set_entry_inv n) in Hm1 as (_ & _ & Hsq1 & _); [|exact Hsq].
  apply IH; [exact Hsq1 | exact Hrest |].
  right. split; [exact Hi | lia].
Qed.

Lemma fill_row_overflow (n i : nat) (es : list element) :
  forall (j0 : nat) (m : list (list cost)),
  square n m -> Forall (fun e => reported e <> None) es ->
  es <> [] -> (n <= i)%nat \/ (n < j0 + length es)%nat ->
  fill_row i j0 m es = Raise IndexError.
Proof.
  induction es as [|e rest IH]; intros j0 m Hsq Hall Hne Hout;
    [congruence|].
  inversion Hall as [|e' rest' He Hrest]; subst.
  cbn [fill_row]. rewrite fill_element_reported.
  destruct (reported e) as [c|]; [|congruence].
  destruct (Nat.lt_ge_cases i n) as [Hi|Hi];
    [|rewrite (set_entry_fail n) by (auto; lia); reflexivity].
  destruct (Nat.lt_ge_cases j0 n) as [Hj|Hj];
    [|rewrite (set_entry_fail n) by (auto; lia); reflexivity].
  destruct (set_entry_ok n m i j0 c Hsq Hi Hj) as [m1 Hm1].
  rewrite Hm1. cbn [bind].
  apply (set_entry_inv n) in Hm1 as (_ & _ & Hsq1 & _); [|exact Hsq].
  cbn [length] in Hout.
  apply IH; [exact Hsq1 | exact Hrest | | right; lia].
  intros ->. cbn [length] in Hout. lia.
Qed.

(** With every key present a row either fits or raises IndexError. *)
Lemma fill_row_outcome (n i : nat) (es : list element) (j0 : nat)
    (m : list (list cost)) :
  square n m -> Forall (fun e => reported e <> None) es ->
  (exists m', fill_row i j0 m es = Ok m' /\ square n m') \/
  fill_row i j0 m es = Raise IndexError.
Proof.
  intros Hsq Hall.
  destruct es as [|e rest] eqn:Ees.
  - left. exists m. split; [reflexivity | exact Hsq].
  - rewrite <- Ees in *.
    destruct (Nat.lt_ge_cases i n) as [Hi|Hi].
    + destruct (Nat.le_gt_cases (j0 + length es) n) as [Hj|Hj].
      * destruct (fill_row_total n i es j0 m Hsq Hall) as [m' Hm'];
          [right; split; assumption|].
        left. exists m'. split; [exact Hm'|].
        apply (fill_row_inv n i es j0 m m' Hsq Hm').
      * right. apply (fill_row_overflow n); auto.
        rewrite Ees. discriminate.
    + right. apply (fill_row_overflow n); auto.
      rewrite Ees. discriminate.
Qed.

Lemma fill_rows_total (n : nat) (rs : list row_json) :
  forall (i0 : nat) (m : list (list cost)),
  square n m -> complete rs ->
  (forall k r es, nth_error rs k = Some r -> elements r = Some es ->
     es = [] \/ ((i0 + k < n)%nat /\ (length es <= n)%nat)) ->
  exists m', fill_rows i0 m rs = Ok m'.
Proof.
  induction rs as [|r rest IH]; intros i0 m Hsq Hall Hfit;
    [eexists; reflexivity|].
  inversion Hall as [|r' rest' [es [Hes Hrep]] Hrest]; subst.
  cbn [fill_rows]. rewrite Hes. cbn [key bind].
  destruct (fill_row_total n i0 es 0 m Hsq Hrep) as [m1 Hm1].
  { destruct (Hfit 0%nat r es eq_refl Hes) as [-> | [H1 H2]];
      [left; reflexivity | right; split; lia]. }
  rewrite Hm1. cbn [bind].
  apply IH; [apply (fill_row_inv n i0 es 0 m m1 Hsq Hm1) | exact Hrest |].
  intros k r' es' Hk Hes'.
  destruct (Hfit (S k) r' es' Hk Hes') as [-> | [H1 H2]];
    [left; reflexivity | right; split; lia].
Qed.

Lemma fill_rows_overflow (n : nat) (rs : list row_json) :
  forall (i0 : nat) (m : list (list cost)),
  square n m -> complete rs ->
  (exists k r es, nth_error rs k = Some r /\ elements r = Some es /\
     es <> [] /\ ((n <= i0 + k)%nat \/ (n < length es)%nat)) ->
  fill_rows i0 m rs = Raise IndexError.
Proof.
  induction rs as [|r rest IH]; intros i0 m Hsq Hall (k & r' & es' & Hk & Hes' & Hne & Hout).
  - destruct k; discriminate.
  - inversion Hall as [|r0 rest0 [es [Hes Hrep]] Hrest]; subst.
    cbn [fill_rows]. rewrite Hes. cbn [key bind].
    destruct k as [|k].
    + cbn in Hk. injection Hk as <-. rewrite Hes in Hes'.
      injection Hes' as <-.
      rewrite (fill_row_overflow n i0 es 0 m Hsq Hrep Hne); [reflexivity|].
      destruct Hout as [Hout | Hout]; [left; lia | right; lia].
    + destruct (fill_row_outcome n i0 es 0 m Hsq Hrep)
        as [[m1 [Hm1 Hsq1]] | Hfail].
      * rewrite Hm1. cbn [bind]. apply IH; [exact Hsq1 | exact Hrest |].
        exists k, r', es'. cbn in Hk.
        repeat split; try assumption.
        destruct Hout as [Hout | Hout]; [left; lia | right; lia].
      * rewrite Hfail. reflexivity.
Qed.

(** X12: when every key the code reads is present, [get_distance_matrix]
    returns a matrix if every element of the response has a cell in the
    [n] by [n] array, and raises IndexError (which nothing catches) if the
    response has an element outside it; it returns [None] exactly when
    there are no coordinates or the request failed. *)
Theorem get_distance_matrix_outcome (coords : list point)
    (data : matrix_json) (rs : list row_json) :
  coords <> [] -> rows data = Some rs -> complete rs ->
  (fits (length coords) rs ->
   exists m, get_distance_matrix coords (Json data) = Ok (Some m)) /\
  (overflows (length coords) rs ->
   get_distance_matrix coords (Json data) = Raise IndexError) /\
  (forall coords' resp,
     get_distance_matrix coords' resp = Ok None <->
     coords' = [] \/ resp = RequestException).
Proof.
  intros Hne Hrows Hall. split; [|split].
  - intros Hfit. unfold get_distance_matrix.
    destruct coords as [|p coords]; [congruence|].
    rewrite Hrows. cbn [key bind].
    destruct (fill_rows_total (length (p :: coords)) rs 0
                (zeros (length (p :: coords))) (zeros_square _) Hall)
      as [m Hm].
    { intros k r es Hk Hes. apply (Hfit k r es Hk Hes). }
    rewrite Hm. cbn [bind]. eauto.
  - intros Hover. unfold get_distance_matrix.
    destruct coords as [|p coords]; [congruence|].
    rewrite Hrows. cbn [key bind].
    rewrite (fill_rows_overflow (length (p :: coords)) rs 0
               (zeros (length (p :: coords))) (zeros_square _) Hall);
      [reflexivity|].
    exact Hover.
  - intros coords' resp. unfold get_distance_matrix. split.
    + destruct coords' as [|p coords']; [auto|].
      destruct resp as [|data']; [auto|].
      destruct (rows data'); cbn [key bind]; [|discriminate].
      destruct (fill_rows _ _ _); cbn [bind]; discriminate.
    + intros [-> | ->]; [reflexivity|].
      destruct coords'; reflexivity.
Qed.

End DistanceMatrixOutcome.

Lemma get_distance_matrix_outcome_witness :
  Service.get_distance_matrix coords_apart (Service.Json Wire.response_wide)
  = Raise IndexError.
Proof.
  destruct (get_distance_matrix_outcome coords_apart Wire.response_wide
              [Service.mkRow
                 (Some [Wire.found 0; Wire.found 5; Wire.found 7])])
    as (_ & Hover & _).
  - discriminate.
  - reflexivity.
  - repeat constructor. eexists. split; [reflexivity|].
    repeat constructor; discriminate.
  - apply Hover. eexists 0%nat, _, _.
    split; [reflexivity|]. split; [reflexivity|].
    split; [discriminate | right; cbn; lia].
Defined.

(** * Directions *)

Section DirectionsFacts.
Import Service.

Variable directions_http : point -> point -> response directions_json.
Variable coords : list point.

#[local] Abbreviation directions :=
  (get_route_directions directions_http coords).

Lemma bind_bind {A B C : Type} (m : result A) (f : A -> result B)
    (g : B -> result C) :
  bind (bind m f) g = bind m (fun a => bind (f a) g).
Proof. destruct m; reflexivity. Qed.

Lemma bind_ext {A B : Type} (m : result A) (f g : A -> result B) :
  (forall a, f a = g a) -> bind m f = bind m g.
Proof. intros H. destruct m; cbn; [apply H | reflexivity]. Qed.

(** The steps of a leg are appended to what is there. *)
Lemma append_steps_acc (ss : list step_json) (acc : list String.string) :
  append_steps acc ss
  = bind (append_steps [] ss) (fun d => Ok (acc ++ d)).
Proof.
  revert acc. induction ss as [|step rest IH]; intros acc.
  - cbn. rewrite app_nil_r. reflexivity.
  - cbn [append_steps].
    destruct (key (html_instructions step)) as [html|e]; cbn [bind];
      [|reflexivity].
    destruct (key (distance_text step)) as [d|e]; cbn [bind]; [|reflexivity].
    destruct (key (duration_text step)) as [t|e]; cbn [bind]; [|reflexivity].
    rewrite (IH (acc ++ _)), (IH ([] ++ _)).
    destruct (append_steps [] rest) as [ds|e]; cbn [bind]; [|reflexivity].
    rewrite <- app_assoc. reflexivity.
Qed.

Lemma append_leg_acc (resp : response directions_json)
    (acc : list String.string) :
  append_leg acc resp = bind (append_leg [] resp) (fun d => Ok (acc ++ d)).
Proof.
  unfold append_leg. destruct resp as [|data].
  - cbn. rewrite app_nil_r. reflexivity.
  - destruct (key (directions_status data)) as [st|e]; cbn [bind];
      [|reflexivity].
    destruct (String.eqb st _);
      [|cbn; rewrite app_nil_r; reflexivity].
    destruct (key (routes data)) as [rs|e]; cbn [bind]; [|reflexivity].
    destruct (getitem rs 0) as [route|e]; cbn [bind]; [|reflexivity].
    destruct (key (legs route)) as [ls|e]; cbn [bind]; [|reflexivity].
    destruct (getitem ls 0) as [leg|e]; cbn [bind]; [|reflexivity].
    destruct (key (steps leg)) as [ss|e]; cbn [bind]; [|reflexivity].
    apply append_steps_acc.
Qed.

Lemma for_leg_acc (order indices : list nat) (acc : list String.string) :
  for_leg directions_http coords order indices acc
  = bind (for_leg directions_http coords order indices [])
         (fun d => Ok (acc ++ d)).
Proof.
  revert acc. induction indices as [|i rest IH]; intros acc.
  - cbn. rewrite app_nil_r. reflexivity.
  - cbn [for_leg].
    destruct (getitem order i) as [a|e]; cbn [bind]; [|reflexivity].
    destruct (getitem coords a) as [origin|e]; cbn [bind]; [|reflexivity].
    destruct (getitem order (i + 1)) as [b|e]; cbn [bind]; [|reflexivity].
    destruct (getitem coords b) as [destination|e]; cbn [bind];
      [|reflexivity].
    rewrite (append_leg_acc _ acc).
    destruct (append_leg [] (directions_http origin destination))
      as [d1|e]; cbn [bind]; [|reflexivity].
    rewrite (IH (acc ++ d1)), (IH d1).
    destruct (for_leg directions_http coords order rest []) as [d2|e];
      cbn [bind]; [|reflexivity].
    rewrite <- app_assoc. reflexivity.
Qed.

Lemma for_leg_shift (a : nat) (order indices : list nat)
    (acc : list String.string) :
  for_leg directions_http coords (a :: order) (map S indices) acc
  = for_leg directions_http coords order indices acc.
Proof.
  revert acc. induction indices as [|i rest IH]; intros acc; [reflexivity|].
  cbn [map for_leg]. change (getitem (a :: order) (S i)) with (getitem order i).
  change (getitem (a :: order) (S i + 1)) with (getitem order (i + 1)).
  apply bind_ext. intros x. apply bind_ext. intros origin.
  apply bind_ext. intros y. apply bind_ext. intros destination.
  apply bind_ext. intros d. apply IH.
Qed.

Lemma directions_cons (b : nat) (rest : list nat) :
  directions (Some (b :: rest))
  = for_leg directions_http coords (b :: rest) (seq 0 (length rest)) [].
Proof.
  unfold get_route_directions. destruct rest as [|c rest]; reflexivity.
Qed.

(** X13: the directions of a route are those of its first leg followed by
    those of the rest of the route, errors included; without an order, or
    with fewer than two stops, the result is the empty list and neither
    the coordinates nor the service are consulted. *)
Theorem get_route_directions_legs (a b : nat) (rest : list nat) :
  get_route_directions directions_http coords (Some (a :: b :: rest))
  = bind (get_route_directions directions_http coords (Some [a; b]))
      (fun first =>
       bind (get_route_directions directions_http coords (Some (b :: rest)))
         (fun others => Ok (first ++ others))) /\
  get_route_directions directions_http coords None = Ok [] /\
  get_route_directions directions_http coords (Some []) = Ok [] /\
  get_route_directions directions_http coords (Some [a]) = Ok [].
Proof.
  split; [|repeat split; reflexivity].
  rewrite (directions_cons b rest), (directions_cons a (b :: rest)),
    (directions_cons a [b]).
  cbn [length seq]. rewrite <- seq_shift.
  cbn [for_leg getitem nth_error Nat.add bind].
  destruct (getitem coords a) as [origin|e]; cbn [bind]; [|reflexivity].
  destruct (getitem coords b) as [destination|e]; cbn [bind];
    [|reflexivity].
  destruct (append_leg [] (directions_http origin destination))
    as [first|e]; cbn [bind]; [|reflexivity].
  rewrite for_leg_shift, for_leg_acc. reflexivity.
Qed.

End DirectionsFacts.

Section LegDirections.
Import Service Wire.
Import String.
#[local] Open Scope list_scope.

Variable directions_http : point -> point -> response directions_json.
Variable coords : list point.

#[local] Abbreviation directions :=
  (get_route_directions directions_http coords).

Lemma append_steps_described (ss : list step_json)
    (texts acc : list String.string) :
  map described ss = map Some texts ->
  append_steps acc ss = Ok (acc ++ texts).
Proof.
  revert texts acc. induction ss as [|step rest IH]; intros texts acc H.
  - destruct texts; [|discriminate]. cbn. rewrite app_nil_r. reflexivity.
  - destruct texts as [|text texts]; [discriminate|].
    cbn [map] in H. injection H as Hstep Hrest.
    unfold described in Hstep. cbn [append_steps].
    destruct (html_instructions step) as [html|]; [|discriminate].
    destruct (distance_text step) as [d|]; [|discriminate].
    destruct (duration_text step) as [t|]; [|discriminate].
    injection Hstep as <-. cbn [key bind].
    rewrite (IH texts) by exact Hrest.
    rewrite <- app_assoc. reflexivity.
Qed.

Lemma directions_pair (a b : nat) (origin destination : point) :
  getitem coords a = Ok origin -> getitem coords b = Ok destination ->
  directions (Some [a; b])
  = append_leg [] (directions_http origin destination).
Proof.
  intros Ha Hb. unfold get_route_directions.
  cbn [List.length Nat.ltb Nat.leb Nat.sub seq for_leg getitem nth_error
       Nat.add bind].
  fold (getitem coords a). fold (getitem coords b). rewrite Ha, Hb.
  cbn [bind]. destruct (append_leg _ _); reflexivity.
Qed.

(** X14: for a leg between two stops that have coordinates, a request
    that fails and a response whose status is not OK add no line and
    raise nothing; a response with status OK adds one line per step of the
    first leg of the first route, in order: the instruction without its
    tags, then the distance and the duration in brackets. *)
Theorem get_route_directions_leg (a b : nat) (origin destination : point) :
  getitem coords a = Ok origin -> getitem coords b = Ok destination ->
  (directions_http origin destination = RequestException ->
   get_route_directions directions_http coords (Some [a; b]) = Ok []) /\
  (forall data st,
     directions_http origin destination = Json data ->
     directions_status data = Some st -> String.eqb st "OK"%string = false ->
     get_route_directions directions_http coords (Some [a; b]) = Ok []) /\
  (forall data route rs leg ls ss texts,
     directions_http origin destination = Json data ->
     directions_status data = Some "OK"%string ->
     routes data = Some (route :: rs) ->
     legs route = Some (leg :: ls) ->
     steps leg = Some ss ->
     map described ss = map Some texts ->
     get_route_directions directions_http coords (Some [a; b]) = Ok texts).
Proof.
  intros Ha Hb. rewrite (directions_pair a b origin destination Ha Hb).
  split; [|split].
  - intros ->. reflexivity.
  - intros data st -> Hst Hne. unfold append_leg. rewrite Hst.
    cbn [key bind]. rewrite Hne. reflexivity.
  - intros data route rs leg ls ss texts -> Hst Hroutes Hlegs Hsteps Htexts.
    unfold append_leg. rewrite Hst, Hroutes. cbn [key bind String.eqb].
    change (String.eqb "OK"%string "OK"%string) with true. cbn [getitem nth_error bind].
    rewrite Hlegs. cbn [key getitem nth_error bind]. rewrite Hsteps.
    cbn [key bind]. rewrite (append_steps_described ss texts [] Htexts).
    reflexivity.
Qed.

End LegDirections.

Section LegDirectionsExample.
Import String.
#[local] Open Scope list_scope.

Lemma get_route_directions_leg_witness :
  Service.get_route_directions (fun _ _ => Service.Json Wire.response_left)
    coords_apart (Some [0; 1]%nat)
  = Ok ["Turn left (0.2 km, 1 min)"%string].
Proof.
  destruct (get_route_directions_leg
              (fun _ _ => Service.Json Wire.response_left) coords_apart
              0 1 (0, 0) (1, 1) eq_refl eq_refl) as (_ & _ & Hok).
  eapply Hok; reflexivity.
Defined.

End LegDirectionsExample.

(** * The endpoints *)

Section EndpointFacts.
Import Extras Service Wire.
Import String.
#[local] Open Scope list_scope.

Variable round2 : R -> R.
Variable geocode_http : string -> response geocode_json.
Variable distance_http : list point -> response matrix_json.

#[local] Abbreviation geocode := (geocode_all geocode_http).
#[local] Abbreviation endpoint :=
  (optimize_route round2 geocode_http distance_http).

(** The two lists of the geocoding loop grow together, by at most one
    entry per address. *)
Lemma geocode_all_lengths (addresses : list string) :
  forall coords valid coords' valid',
  geocode addresses coords valid = Ok (coords', valid') ->
  List.length coords = List.length valid ->
  List.length coords' = List.length valid' /\
  (List.length coords' <= List.length coords + List.length addresses)%nat.
Proof.
  induction addresses as [|addr rest IH]; intros coords valid coords' valid' H Hlen.
  - cbn in H. injection H as <- <-. split; [exact Hlen | lia].
  - cbn [geocode_all] in H.
    destruct (geocode_address (geocode_http addr)) as [[[lat lng] fa]|e];
      cbn [bind] in H; [|discriminate].
    destruct lat as [lat|]; [destruct lng as [lng|]|].
    + apply IH in H as [H1 H2]; [|rewrite !length_app; cbn; lia].
      split; [exact H1|]. rewrite length_app in H2. cbn in H2 |- *. lia.
    + apply IH in H as [H1 H2]; [|exact Hlen].
      split; [exact H1 | cbn; lia].
    + apply IH in H as [H1 H2]; [|exact Hlen].
      split; [exact H1 | cbn; lia].
Qed.

(** Picking along a rearranged order gives the rearranged addresses. *)
Lemma pick_permutation (valid : list string) (o1 o2 : list nat) :
  Permutation o1 o2 ->
  forall a1, pick valid o1 = Ok a1 ->
  exists a2, pick valid o2 = Ok a2 /\ Permutation a1 a2.
Proof.
  induction 1 as [|x l l' Hp IH|x y l|l l' l'' H1 IH1 H2 IH2]; intros a1 H.
  - exists a1. split; [exact H|]. cbn in H. injection H as <-. constructor.
  - cbn [pick] in H |- *.
    destruct (getitem valid x) as [a|e]; cbn [bind] in H |- *;
      [|discriminate].
    destruct (pick valid l) as [others|e]; cbn [bind] in H; [|discriminate].
    injection H as <-. destruct (IH others eq_refl) as (a2 & -> & Hperm).
    cbn [bind]. exists (a :: a2). split; [reflexivity|].
    constructor. exact Hperm.
  - cbn [pick] in H |- *.
    destruct (getitem valid y) as [b|e]; cbn [bind] in H |- *;
      [|discriminate].
    destruct (getitem valid x) as [a|e]; cbn [bind] in H |- *;
      [|discriminate].
    destruct (pick valid l) as [others|e]; cbn [bind] in H |- *;
      [|discriminate].
    injection H as <-. exists (a :: b :: others).
    split; [reflexivity | constructor].
  - destruct (IH1 a1 H) as (a2 & Ha2 & Hp12).
    destruct (IH2 a2 Ha2) as (a3 & Ha3 & Hp23).
    exists a3. split; [exact Ha3|]. eapply Permutation_trans; eassumption.
Qed.

Lemma pick_all (pre l : list string) :
  pick (pre ++ l) (seq (List.length pre) (List.length l)) = Ok l.
Proof.
  revert pre. induction l as [|x l IH]; intros pre; [reflexivity|].
  cbn [List.length seq pick]. unfold getitem.
  rewrite nth_error_app2 by lia. rewrite Nat.sub_diag. cbn [nth_error bind].
  specialize (IH (pre ++ [x])). rewrite <- app_assoc in IH. cbn [app] in IH.
  rewrite length_app in IH. cbn [List.length] in IH.
  rewrite Nat.add_1_r in IH. rewrite IH. reflexivity.
Qed.

Lemma pick_identity (valid : list string) :
  pick valid (seq 0 (List.length valid)) = Ok valid.
Proof. apply (pick_all [] valid). Qed.

Lemma pick_head (valid picked : list string) (rest : list nat) :
  pick valid (0%nat :: rest) = Ok picked ->
  hd_error picked = hd_error valid.
Proof.
  cbn [pick]. destruct valid as [|a valid]; cbn; [discriminate|].
  destruct (pick (a :: valid) rest); cbn; [|discriminate].
  intros H. injection H as <-. reflexivity.
Qed.

Lemma get_distance_matrix_square (coords : list point)
    (resp : response matrix_json) (m : list (list cost)) :
  get_distance_matrix coords resp = Ok (Some m) ->
  square (List.length coords) m.
Proof.
  unfold get_distance_matrix. destruct coords as [|p coords]; [discriminate|].
  destruct resp as [|data]; [discriminate|].
  destruct (rows data) as [rs|]; cbn [key bind]; [|discriminate].
  destruct (fill_rows 0 _ rs) as [m'|e] eqn:E; cbn [bind]; [|discriminate].
  intros H. injection H as <-.
  apply (fill_rows_inv _ rs 0 _ m' (zeros_square _) E).
Qed.

(** X15: a response of [optimize_route] is consistent: it has at least
    two stops and no more than the addresses given, as many original
    addresses as coordinates, an order that is a permutation of their
    indices starting with 0, the addresses rearranged along that order
    (the first one staying first), and a total that is the one of that
    order over the distance matrix of its coordinates, every leg of the
    order being a pair for which the matrix holds a finite distance. *)
Theorem optimize_route_response (api_key : option string)
    (addresses : list string) (r : RouteResponse) :
  optimize_route round2 geocode_http distance_http api_key addresses = Return r ->
  let n := List.length (coordinates r) in
  (2 <= n <= List.length addresses)%nat /\
  List.length (original_addresses r) = n /\
  Permutation (optimized_order r) (seq 0 n) /\
  hd_error (optimized_order r) = Some 0%nat /\
  Permutation (optimized_addresses r) (original_addresses r) /\
  hd_error (optimized_addresses r) = hd_error (original_addresses r) /\
  exists m t,
    get_distance_matrix (coordinates r) (distance_http (coordinates r))
    = Ok (Some m) /\
    legs_finite m (optimized_order r) /\
    total_distance m (optimized_order r) = Ok t /\
    total_distance_km r = to_km round2 t.
Proof.
  unfold optimize_route. destruct (missing api_key); [discriminate|].
  destruct (List.length addresses <? 2)%nat; [discriminate|].
  destruct (geocode addresses [] []) as [[coords valid]|e] eqn:Egeo;
    cbn [lift fst snd]; [|discriminate].
  destruct (List.length coords <? 2)%nat eqn:Etwo; [discriminate|].
  apply Nat.ltb_ge in Etwo.
  destruct (get_distance_matrix coords (distance_http coords))
    as [[m|]|e] eqn:Em; cbn [lift]; try discriminate.
  destruct (solve_tsp_nearest_neighbor_with_right_turn_penalty coords m
              (Fin 500)) as [order|e] eqn:Esolve; cbn [lift];
    [|discriminate].
  destruct (total_distance m order) as [total|e] eqn:Etotal; cbn [lift];
    [|discriminate].
  destruct (pick valid order) as [picked|e] eqn:Epick; cbn [lift];
    [|discriminate].
  intros H. injection H as <-. cbn [coordinates original_addresses
    optimized_order optimized_addresses total_distance_km].
  destruct (geocode_all_lengths addresses [] [] coords valid Egeo eq_refl)
    as [Hlen Hmost].
  pose proof (get_distance_matrix_square _ _ _ Em) as [Hm _].
  assert (Hn : (1 <= List.length m)%nat) by lia.
  destruct (solve_ok_invariant coords m (Fin 500) order Hn Esolve)
    as (s & -> & Hinv & He).
  pose proof (exit_permutation m s Hinv He) as Hperm. rewrite Hm in Hperm.
  pose proof (inv_start _ _ Hinv) as Hstart.
  split; [cbn in Hmost; lia|]. split; [symmetry; exact Hlen|].
  split; [exact Hperm|]. split; [exact Hstart|]. split; [|split].
  - destruct (pick_permutation valid _ _ Hperm picked Epick)
      as (a2 & Ha2 & Hp).
    rewrite Hlen, pick_identity in Ha2. injection Ha2 as <-. exact Hp.
  - destruct (Route.order s) as [|i rest]; [discriminate|].
    cbn in Hstart. injection Hstart as ->.
    eapply pick_head. exact Epick.
  - exists m, total. split; [exact Em|]. split; [|split].
    + apply (solve_ok_legs_finite coords m (Fin 500)). exact Esolve.
    + exact Etotal.
    + reflexivity.
Qed.

End EndpointFacts.

Section EndpointOutcomes.
Import Extras Service Wire.
Import String.
#[local] Open Scope list_scope.

Variable round2 : R -> R.
Variable geocode_http : string -> response geocode_json.
Variable distance_http : list point -> response matrix_json.

#[local] Abbreviation geocode := (geocode_all geocode_http).
#[local] Abbreviation endpoint :=
  (optimize_route round2 geocode_http distance_http).

Lemma geocode_all_found (addresses : list string) :
  Forall (geocodes geocode_http) addresses ->
  forall coords valid,
  exists cs vs,
    geocode addresses coords valid = Ok (coords ++ cs, valid ++ vs) /\
    List.length cs = List.length addresses /\
    List.length vs = List.length addresses.
Proof.
  induction 1 as [|addr rest (lat & lng & fa & more & Haddr) _ IH];
    intros coords valid.
  - exists [], []. rewrite !app_nil_r. repeat split.
  - cbn [geocode_all]. rewrite Haddr. cbn [geocode_address results key bind
      geo_lat geo_lng formatted_address].
    destruct (IH (coords ++ [(lat, lng)]) (valid ++ [or_else (Some fa) addr]))
      as (cs & vs & -> & Hcs & Hvs).
    exists ((lat, lng) :: cs), (or_else (Some fa) addr :: vs).
    rewrite <- !app_assoc. cbn [app List.length].
    repeat split; [rewrite Hcs | rewrite Hvs]; reflexivity.
Qed.

(** The matrix of a response in which every key is present and every
    element has a cell. *)
Lemma get_distance_matrix_fits (coords : list point) (data : matrix_json)
    (rs : list row_json) :
  coords <> [] -> rows data = Some rs -> complete rs ->
  fits (List.length coords) rs ->
  exists m,
    get_distance_matrix coords (Json data) = Ok (Some m) /\
    square (List.length coords) m /\
    forall i j e, response_cell rs i j = Some e ->
      exists c, reported e = Some c /\ entry m i j = Ok c.
Proof.
  intros Hne Hrows Hall Hfit. unfold get_distance_matrix.
  destruct coords as [|p coords]; [congruence|].
  rewrite Hrows. cbn [key bind].
  destruct (fill_rows_total (List.length (p :: coords)) rs 0
              (zeros (List.length (p :: coords))) (zeros_square _) Hall)
    as [m Hm].
  { intros k r es Hk Hes. apply (Hfit k r es Hk Hes). }
  rewrite Hm. cbn [bind]. exists m. split; [reflexivity|].
  destruct (fill_rows_inv _ rs 0 _ m (zeros_square _) Hm)
    as (Hsq & Hcells & _).
  split; [exact Hsq|]. intros i j e He. apply (Hcells i j e He).
Qed.

(** X16: [optimize_route] answers when the key is set, at least two
    addresses are given and each is found, and the distance response for
    their coordinates has every key, fits the matrix and reports a route
    (status OK with a distance) between every two distinct stops. *)
Theorem optimize_route_succeeds (api_key : option string)
    (addresses : list string) :
  missing api_key = false ->
  (2 <= List.length addresses)%nat ->
  Forall (geocodes geocode_http) addresses ->
  (forall coords, List.length coords = List.length addresses ->
     exists data rs,
       distance_http coords = Json data /\ rows data = Some rs /\
       complete rs /\ fits (List.length coords) rs /\
       forall i j, (i < List.length coords)%nat ->
         (j < List.length coords)%nat -> i <> j ->
         exists e v, response_cell rs i j = Some e /\
                     reported e = Some (Fin v)) ->
  exists r, optimize_route round2 geocode_http distance_http
              api_key addresses = Return r.
Proof.
  intros Hkey Htwo Hgeo Hdist.
  destruct (geocode_all_found addresses Hgeo [] [])
    as (coords & valid & Egeo & Hcs & Hvs). cbn [app] in Egeo.
  destruct (Hdist coords Hcs) as (data & rs & Eresp & Hrows & Hall & Hfit & Hok).
  assert (Hne : coords <> []) by (intros ->; cbn in Hcs; lia).
  destruct (get_distance_matrix_fits coords data rs Hne Hrows Hall Hfit)
    as (m & Em & [Hm Hrowsm] & Hcells).
  assert (Hreach : forall i j, (i < List.length m)%nat ->
            (j < List.length m)%nat -> i <> j ->
            exists x, entry m i j = Ok (Fin x)).
  { intros i j Hi Hj Hij. rewrite Hm in Hi, Hj.
    destruct (Hok i j Hi Hj Hij) as (e & v & He & Hv).
    destruct (Hcells i j e He) as (c & Hc & Hentry).
    exists v. rewrite Hentry. congruence. }
  assert (Hsize : List.length coords = List.length m) by congruence.
  assert (Hn : (1 <= List.length m)%nat) by lia.
  destruct (solve_reachable coords m 500 Hsize Hreach Hn)
    as (sf & Esolve & _ & _ & _ & Hperm & _ & _).
  pose proof (solve_ok_legs_finite coords m (Fin 500) _ Esolve) as Hlegs.
  apply legs_finite_total in Hlegs as [t Ht].
  rewrite <- total_distance_pairs in Ht.
  assert (Hv : List.length valid = List.length m) by congruence.
  destruct (pick_permutation valid _ _ (Permutation_sym Hperm) valid)
    as (picked & Epick & _); [rewrite <- Hv; apply pick_identity|].
  unfold optimize_route. rewrite Hkey.
  destruct (List.length addresses <? 2)%nat eqn:E2;
    [apply Nat.ltb_lt in E2; lia|].
  rewrite Egeo. cbn [lift fst snd].
  destruct (List.length coords <? 2)%nat eqn:E3;
    [apply Nat.ltb_lt in E3; lia|].
  rewrite Eresp, Em. cbn [lift]. rewrite Esolve. cbn [lift].
  rewrite Ht. cbn [lift]. rewrite Epick. cbn [lift]. eauto.
Qed.

(** X17: when the distance response reports no route (a status other than
    OK) from the first stop to every other stop, [optimize_route] does not
    answer with an error status: the KeyError of the route construction
    propagates uncaught. *)
Theorem optimize_route_unreachable_start (api_key : option string)
    (addresses : list string) :
  missing api_key = false ->
  (2 <= List.length addresses)%nat ->
  Forall (geocodes geocode_http) addresses ->
  (forall coords, List.length coords = List.length addresses ->
     exists data rs,
       distance_http coords = Json data /\ rows data = Some rs /\
       complete rs /\ fits (List.length coords) rs /\
       forall j, (0 < j < List.length coords)%nat ->
         exists e, response_cell rs 0 j = Some e /\
                   reported e = Some PInf) ->
  optimize_route round2 geocode_http distance_http api_key addresses
  = Uncaught KeyError.
Proof.
  intros Hkey Htwo Hgeo Hdist.
  destruct (geocode_all_found addresses Hgeo [] [])
    as (coords & valid & Egeo & Hcs & Hvs). cbn [app] in Egeo.
  destruct (Hdist coords Hcs) as (data & rs & Eresp & Hrows & Hall & Hfit & Hinf).
  assert (Hne : coords <> []) by (intros ->; cbn in Hcs; lia).
  destruct (get_distance_matrix_fits coords data rs Hne Hrows Hall Hfit)
    as (m & Em & [Hm Hrowsm] & Hcells).
  assert (Esolve : solve_tsp_nearest_neighbor_with_right_turn_penalty
                     coords m (Fin 500) = Raise KeyError).
  { unfold solve_tsp_nearest_neighbor_with_right_turn_penalty.
    rewrite while_all_inf; [reflexivity | |].
    - unfold initial_state. cbn [unvisited].
      destruct (List.length m) as [|[|k]] eqn:Ek; [lia | lia |].
      cbn. discriminate.
    - unfold initial_state. cbn [unvisited prev current].
      intros city Hcity. apply in_seq in Hcity.
      destruct (Hinf city) as (e & He & Hrep); [lia|].
      destruct (Hcells 0%nat city e He) as (c & Hc & Hentry).
      rewrite candidate_cost_entry, Hentry. cbn [bind]. congruence. }
  unfold optimize_route. rewrite Hkey.
  destruct (List.length addresses <? 2)%nat eqn:E2;
    [apply Nat.ltb_lt in E2; lia|].
  rewrite Egeo. cbn [lift fst snd].
  destruct (List.length coords <? 2)%nat eqn:E3;
    [apply Nat.ltb_lt in E3; lia|].
  rewrite Eresp, Em. cbn [lift]. rewrite Esolve. reflexivity.
Qed.

End EndpointOutcomes.

Section EndpointExamples.
Import Extras Service Wire.
Import String.
#[local] Open Scope list_scope.

(** A run of the endpoint on two addresses ten metres apart. *)
Lemma optimize_route_pair :
  optimize_route (fun x => x) geocode_two (fun _ => Json response_pair)
    (Some "key"%string) ["A"%string; "B"%string]
  = Return {| coordinates := [(0, 1); (0, 0)];
              optimized_order := [0; 1]%nat;
              total_distance_km := Fin ((0 + 10) / 1000);
              original_addresses := ["A St"%string; "B St"%string];
              optimized_addresses := ["A St"%string; "B St"%string] |}.
Proof. reflexivity. Qed.

Lemma optimize_route_response_witness :
  Permutation [0; 1]%nat (seq 0 2) /\
  exists m t,
    get_distance_matrix [(0, 1); (0, 0)] (Json response_pair) = Ok (Some m) /\
    legs_finite m [0; 1]%nat /\
    total_distance m [0; 1]%nat = Ok t /\
    Fin ((0 + 10) / 1000) = to_km (fun x => x) t.
Proof.
  destruct (optimize_route_response (fun x => x) geocode_two
              (fun _ => Json response_pair) (Some "key"%string)
              ["A"%string; "B"%string] _ optimize_route_pair)
    as (_ & _ & Hperm & _ & _ & _ & Htotal).
  split; [exact Hperm | exact Htotal].
Defined.

Lemma geocode_two_found :
  Forall (geocodes geocode_two) ["A"%string; "B"%string].
Proof.
  repeat constructor; unfold geocodes, geocode_two; cbn;
    repeat eexists.
Qed.

Lemma two_stops (coords : list point) :
  List.length coords = 2%nat -> exists p q, coords = [p; q].
Proof.
  destruct coords as [|p [|q [|r coords]]]; cbn; try discriminate. eauto.
Qed.

Lemma response_pair_complete : complete [
  {| elements := Some [found 0; found 10] |};
  {| elements := Some [found 10; found 0] |} ].
Proof.
  repeat constructor; eexists; (split; [reflexivity|]);
    repeat constructor; discriminate.
Qed.

Lemma response_apart_complete : complete [
  {| elements := Some [found 0; not_found "ZERO_RESULTS"] |};
  {| elements := Some [not_found "NOT_FOUND"] |} ].
Proof.
  repeat constructor; eexists; (split; [reflexivity|]);
    repeat constructor; discriminate.
Qed.

Lemma optimize_route_succeeds_witness :
  exists r,
    optimize_route (fun x => x) geocode_two (fun _ => Json response_pair)
      (Some "key"%string) ["A"%string; "B"%string] = Return r.
Proof.
  apply (optimize_route_succeeds (fun x => x) geocode_two
           (fun _ => Json response_pair)).
  - reflexivity.
  - cbn. lia.
  - exact geocode_two_found.
  - intros coords Hlen. destruct (two_stops coords Hlen) as (p & q & ->).
    eexists response_pair, _. split; [reflexivity|].
    split; [reflexivity|]. split; [exact response_pair_complete|]. split.
    + intros [|[|k]] r es Hk Hes; cbn in Hk;
        [| |destruct k; discriminate];
        injection Hk as <-; cbn in Hes; injection Hes as <-; right; cbn;
        lia.
    + intros [|[|i]] [|[|j]] Hi Hj Hij; cbn in Hi, Hj; try lia;
        try congruence; do 2 eexists; split; reflexivity.
Defined.

Lemma optimize_route_unreachable_start_witness :
  optimize_route (fun x => x) geocode_two (fun _ => Json response_apart)
    (Some "key"%string) ["A"%string; "B"%string] = Uncaught KeyError.
Proof.
  apply (optimize_route_unreachable_start (fun x => x) geocode_two
           (fun _ => Json response_apart)).
  - reflexivity.
  - cbn. lia.
  - exact geocode_two_found.
  - intros coords Hlen. destruct (two_stops coords Hlen) as (p & q & ->).
    eexists response_apart, _. split; [reflexivity|].
    split; [reflexivity|]. split; [exact response_apart_complete|]. split.
    + intros [|[|k]] r es Hk Hes; cbn in Hk;
        [| |destruct k; discriminate];
        injection Hk as <-; cbn in Hes; injection Hes as <-; right; cbn;
        lia.
    + intros [|[|j]] Hj; cbn in Hj; try lia.
      eexists; split; reflexivity.
Defined.

End EndpointExamples.

Section EndpointRobustness.
Import Extras Service Wire.
Import String.
#[local] Open Scope list_scope.

Variable round2 : R -> R.
Variable geocode_http : string -> response geocode_json.
Variable distance_http : list point -> response matrix_json.

Lemma fill_row_in_range (n i : nat) (es : list element) :
  forall (j0 : nat) (m : list (list cost)),
  square n m ->
  es = [] \/ ((i < n)%nat /\ (j0 + List.length es <= n)%nat) ->
  fill_row i j0 m es <> Raise IndexError.
Proof.
  induction es as [|e rest IH]; intros j0 m Hsq Hfit; [discriminate|].
  destruct Hfit as [Hnil | [Hi Hj]]; [discriminate|].
  cbn [List.length] in Hj. cbn [fill_row]. rewrite fill_element_reported.
  destruct (reported e) as [c|]; [|discriminate].
  destruct (set_entry_ok n m i j0 c Hsq Hi) as [m1 Hm1]; [lia|].
  rewrite Hm1. cbn [bind].
  apply (set_entry_inv n) in Hm1 as (_ & _ & Hsq1 & _); [|exact Hsq].
  apply IH; [exact Hsq1|]. right. split; [exact Hi | lia].
Qed.

Lemma fill_rows_in_range (n : nat) (rs : list row_json) :
  forall (i0 : nat) (m : list (list cost)),
  square n m ->
  (forall k r es, nth_error rs k = Some r -> elements r = Some es ->
     es = [] \/ ((i0 + k < n)%nat /\ (List.length es <= n)%nat)) ->
  fill_rows i0 m rs <> Raise IndexError.
Proof.
  induction rs as [|r rest IH]; intros i0 m Hsq Hfit; [discriminate|].
  cbn [fill_rows].
  destruct (elements r) as [es|] eqn:Ees; cbn [key bind]; [|discriminate].
  assert (Hrow : es = [] \/ ((i0 < n)%nat /\ (0 + List.length es <= n)%nat)).
  { destruct (Hfit 0%nat r es eq_refl Ees) as [-> | [H1 H2]];
      [left; reflexivity | right; split; lia]. }
  destruct (fill_row i0 0 m es) as [m1|e] eqn:Erow; cbn [bind].
  - apply IH; [apply (fill_row_inv n i0 es 0 m m1 Hsq Erow)|].
    intros k r' es' Hk Hes'.
    destruct (Hfit (S k) r' es' Hk Hes') as [-> | [H1 H2]];
      [left; reflexivity | right; split; lia].
  - intros E. injection E as ->.
    exact (fill_row_in_range n i0 es 0 m Hsq Hrow Erow).
Qed.

Lemma solve_in_range (coords : list point) (m : list (list cost))
    (penalty : cost) :
  (1 <= List.length m)%nat -> square (List.length m) m ->
  List.length coords = List.length m ->
  solve_tsp_nearest_neighbor_with_right_turn_penalty coords m penalty
  <> Raise IndexError.
Proof.
  intros Hn Hsq Hco.
  unfold solve_tsp_nearest_neighbor_with_right_turn_penalty.
  destruct (while_outcomes coords m penalty _ Hsq Hco
              (initial_loop_invariant m Hn)) as [[s' ->] | [-> _]];
    discriminate.
Qed.

(** X18: whatever the services answer, [optimize_route] raises IndexError
    only if the distance response has an element outside the [n] by [n]
    matrix: when every response of the distance service fits, no
    subscript of the whole request is out of range. *)
Theorem optimize_route_subscripts (api_key : option string)
    (addresses : list string) :
  (forall coords data rs,
     distance_http coords = Json data -> rows data = Some rs ->
     fits (List.length coords) rs) ->
  optimize_route round2 geocode_http distance_http api_key addresses
  <> Uncaught IndexError.
Proof.
  intros Hfits. unfold optimize_route.
  destruct (missing api_key); [discriminate|].
  destruct (List.length addresses <? 2)%nat; [discriminate|].
  destruct (geocode_all geocode_http addresses [] [])
    as [[coords valid]|e] eqn:Egeo; cbn [lift fst snd].
  2:{ (* the geocoding loop raises KeyError only *)
    intros E. injection E as ->. revert Egeo.
    generalize (@nil point) (@nil string).
    induction addresses as [|addr rest IH]; intros c v; [discriminate|].
    cbn [geocode_all]. unfold geocode_address.
    destruct (geocode_http addr) as [|data]; cbn [bind]; [apply IH|].
    destruct (results data) as [[|first more]|]; cbn [bind]; try apply IH.
    destruct (geo_lat first); cbn [key bind]; [|discriminate].
    destruct (geo_lng first); cbn [key bind]; [|discriminate].
    destruct (formatted_address first); cbn [key bind]; [|discriminate].
    apply IH. }
  destruct (List.length coords <? 2)%nat eqn:Etwo; [discriminate|].
  apply Nat.ltb_ge in Etwo.
  destruct (geocode_all_lengths geocode_http addresses [] [] coords valid
              Egeo eq_refl) as [Hlen _].
  destruct (get_distance_matrix coords (distance_http coords))
    as [[m|]|e] eqn:Em; cbn [lift]; [| discriminate |].
  2:{ intros E. injection E as ->. revert Em. unfold get_distance_matrix.
      destruct coords as [|p coords]; [discriminate|].
      destruct (distance_http (p :: coords)) as [|data] eqn:Eresp;
        [discriminate|].
      destruct (rows data) as [rs|] eqn:Erows; cbn [key bind];
        [|discriminate].
      destruct (fill_rows 0 _ rs) as [m'|e] eqn:Efill; cbn [bind];
        [discriminate|].
      intros E. injection E as ->.
      apply (fill_rows_in_range (List.length (p :: coords)) rs 0
               (zeros (List.length (p :: coords))) (zeros_square _));
        [|exact Efill].
      intros k r es Hk Hes.
      apply (Hfits (p :: coords) data rs Eresp Erows k r es Hk Hes). }
  pose proof (get_distance_matrix_square _ _ _ Em) as Hsq.
  assert (Hm : List.length m = List.length coords) by apply Hsq.
  assert (Hn : (1 <= List.length m)%nat) by lia.
  destruct (solve_tsp_nearest_neighbor_with_right_turn_penalty coords m
              (Fin 500)) as [order|e] eqn:Esolve; cbn [lift].
  2:{ intros E. injection E as ->.
      apply (solve_in_range coords m (Fin 500) Hn); [| |exact Esolve];
        [rewrite Hm; exact Hsq | congruence]. }
  pose proof (solve_ok_legs_finite coords m (Fin 500) _ Esolve) as Hlegs.
  apply legs_finite_total in Hlegs as [t Ht].
  rewrite total_distance_pairs, Ht. cbn [lift].
  destruct (solve_ok_invariant coords m (Fin 500) order Hn Esolve)
    as (s & -> & Hinv & He).
  pose proof (exit_permutation m s Hinv He) as Hperm.
  destruct (pick_permutation valid _ _ (Permutation_sym Hperm) valid)
    as (picked & -> & _);
    [rewrite Hm, Hlen; apply pick_identity | discriminate].
Qed.

End EndpointRobustness.

Section EndpointRobustnessExample.
Import Extras Service Wire.
Import String.
#[local] Open Scope list_scope.

(** A distance service that answers for two stops only. *)
Lemma optimize_route_subscripts_witness :
  optimize_route (fun x => x) geocode_two
    (fun coords => if (List.length coords =? 2)%nat
                   then Json response_apart else RequestException)
    (Some "key"%string) ["A"%string; "B"%string]
  <> Uncaught IndexError.
Proof.
  apply (optimize_route_subscripts (fun x => x) geocode_two
           (fun coords => if (List.length coords =? 2)%nat
                          then Json response_apart else RequestException)).
  intros coords data rs Hdata Hrows.
  destruct (List.length coords =? 2)%nat eqn:E; [|discriminate].
  apply Nat.eqb_eq in E. injection Hdata as <-.
  cbn in Hrows. injection Hrows as <-.
  intros [|[|k]] r es Hk Hes; cbn in Hk;
    [| |destruct k; discriminate];
    injection Hk as <-; cbn in Hes; injection Hes as <-; right;
    rewrite E; cbn; lia.
Defined.

End EndpointRobustnessExample.

(** * Extending a route *)

Section RouteExtend.

Variable matrix : list (list cost).

(** The sum runs from left to right. *)
Lemma sum_from_app (start : cost) (l1 l2 : list (result cost)) :
  sum_from start (l1 ++ l2)
  = bind (sum_from start l1) (fun t => sum_from t l2).
Proof.
  revert start. induction l1 as [|x l1 IH]; intros start; [reflexivity|].
  cbn [app sum_from]. destruct x as [c|e]; cbn [bind]; [apply IH|reflexivity].
Qed.

(** A leg inside the order is not changed by what is appended. *)
Lemma leg_prefix (order tail : list nat) (i : nat) :
  (i + 1 < length order)%nat ->
  leg matrix (order ++ tail) i = leg matrix order i.
Proof.
  intros Hi. unfold leg, getitem.
  rewrite !nth_error_app1 by lia. reflexivity.
Qed.

Lemma leg_last (order : list nat) (a b : nat) :
  leg matrix (order ++ [a; b]) (length order) = entry matrix a b.
Proof.
  unfold leg, getitem, entry.
  rewrite !nth_error_app2 by lia.
  replace (length order - length order)%nat with 0%nat by lia.
  replace (length order + 1 - length order)%nat with 1%nat by lia.
  reflexivity.
Qed.

(** X19: the total distance is accumulated from the first leg to the
    last: the total of a route extended by one stop is the total of the
    route, to which the entry of the added leg is added last; an error of
    the route is the error of the extended route. *)
Theorem total_distance_extend (order : list nat) (a b : nat) :
  total_distance matrix ((order ++ [a]) ++ [b])
  = bind (total_distance matrix (order ++ [a])) (fun t =>
    bind (entry matrix a b) (fun x => Ok (cost_add t x))).
Proof.
  unfold total_distance. rewrite !length_app. cbn [length].
  replace (length order + 1 + 1 - 1)%nat with (S (length order)) by lia.
  replace (length order + 1 - 1)%nat with (length order) by lia.
  rewrite seq_S, map_app, sum_from_app. cbn [Nat.add map].
  assert (E : map (leg matrix ((order ++ [a]) ++ [b])) (seq 0 (length order))
              = map (leg matrix (order ++ [a])) (seq 0 (length order))).
  { apply map_ext_in. intros i Hi. apply in_seq in Hi.
    apply leg_prefix. rewrite length_app. cbn [length]. lia. }
  rewrite E.
  destruct (sum_from (Fin 0) (map (leg matrix (order ++ [a]))
                                (seq 0 (length order)))) as [t|e];
    cbn [bind]; [|reflexivity].
  cbn [sum_from]. rewrite <- app_assoc. cbn [app]. rewrite leg_last.
  reflexivity.
Qed.

End RouteExtend.

(** * Directions of an optimised route *)

Section DirectionsEndpoint.
Import Extras Service Wire.
Import String.
#[local] Open Scope list_scope.

Variable round2 : R -> R.
Variable geocode_http : string -> response geocode_json.
Variable distance_http : list point -> response matrix_json.
Variable directions_http : point -> point -> response directions_json.

Lemma optimize_route_order (api_key : option string)
    (addresses : list string) (r : RouteResponse) :
  optimize_route round2 geocode_http distance_http api_key addresses
  = Return r ->
  missing api_key = false /\
  Permutation (optimized_order r) (seq 0 (List.length (coordinates r))).
Proof.
  unfold optimize_route. destruct (missing api_key); [discriminate|].
  destruct (List.length addresses <? 2)%nat; [discriminate|].
  destruct (geocode_all geocode_http addresses [] [])
    as [[coords valid]|e] eqn:Egeo; cbn [lift fst snd]; [|discriminate].
  destruct (List.length coords <? 2)%nat eqn:Etwo; [discriminate|].
  apply Nat.ltb_ge in Etwo.
  destruct (get_distance_matrix coords (distance_http coords))
    as [[m|]|e] eqn:Em; cbn [lift]; try discriminate.
  destruct (solve_tsp_nearest_neighbor_with_right_turn_penalty coords m
              (Fin 500)) as [order|e] eqn:Esolve; cbn [lift];
    [|discriminate].
  destruct (total_distance m order); cbn [lift]; [|discriminate].
  destruct (pick valid order); cbn [lift]; [|discriminate].
  intros H. injection H as <-. cbn [coordinates optimized_order].
  split; [reflexivity|].
  pose proof (get_distance_matrix_square _ _ _ Em) as [Hm _].
  assert (Hn : (1 <= List.length m)%nat) by lia.
  destruct (solve_ok_invariant coords m (Fin 500) order Hn Esolve)
    as (s & -> & Hinv & He).
  rewrite <- Hm. exact (exit_permutation m s Hinv He).
Qed.

(** With every stop in range, legs whose requests all fail add nothing. *)
Lemma for_leg_all_failed (coords : list point) (order indices : list nat)
    (acc : list string) :
  (forall origin destination,
     directions_http origin destination = RequestException) ->
  (forall a, In a order -> (a < List.length coords)%nat) ->
  (forall i, In i indices -> (i + 1 < List.length order)%nat) ->
  for_leg directions_http coords order indices acc = Ok acc.
Proof.
  intros Hdown Hstops. induction indices as [|i rest IH]; intros Hidx;
    [reflexivity|].
  cbn [for_leg].
  assert (Hi : (i + 1 < List.length order)%nat)
    by (apply Hidx; left; reflexivity).
  destruct (getitem_lt_ok order i) as [a Ha]; [lia|].
  destruct (getitem_lt_ok order (i + 1)) as [b Hb]; [exact Hi|].
  rewrite Ha, Hb. cbn [bind].
  assert (Hina : In a order).
  { unfold getitem in Ha. destruct (nth_error order i) eqn:E;
      [|discriminate]. injection Ha as <-. eapply nth_error_In. exact E. }
  assert (Hinb : In b order).
  { unfold getitem in Hb. destruct (nth_error order (i + 1)) eqn:E;
      [|discriminate]. injection Hb as <-. eapply nth_error_In. exact E. }
  destruct (getitem_lt_ok coords a (Hstops a Hina)) as [origin ->].
  destruct (getitem_lt_ok coords b (Hstops b Hinb)) as [destination ->].
  cbn [bind]. rewrite Hdown. cbn [append_leg bind].
  apply IH. intros j Hj. apply Hidx. right. exact Hj.
Qed.

(** X20: when [optimize_route] answers and every request to the
    directions service fails, [get_directions] answers with the empty
    list: the failures are skipped and no subscript is out of range. *)
Theorem get_directions_service_down (api_key : option string)
    (addresses : list string) (r : RouteResponse) :
  optimize_route round2 geocode_http distance_http api_key addresses
  = Return r ->
  (forall origin destination,
     directions_http origin destination = RequestException) ->
  get_directions round2 geocode_http distance_http directions_http
    api_key addresses = Return [].
Proof.
  intros Hroute Hdown.
  destruct (optimize_route_order api_key addresses r Hroute)
    as [Hkey Hperm].
  unfold get_directions. rewrite Hkey, Hroute.
  unfold get_route_directions.
  destruct (List.length (optimized_order r) <? 2)%nat; [reflexivity|].
  rewrite for_leg_all_failed; [reflexivity | exact Hdown | |].
  - intros a Ha.
    apply (Permutation_in _ Hperm) in Ha. apply in_seq in Ha. lia.
  - intros i Hi. apply in_seq in Hi. lia.
Qed.

End DirectionsEndpoint.

Section DirectionsEndpointExample.
Import Extras Service Wire.
Import String.
#[local] Open Scope list_scope.

Lemma get_directions_service_down_witness :
  get_directions (fun x => x) geocode_two (fun _ => Json response_pair)
    (fun _ _ => RequestException) (Some "key"%string)
    ["A"%string; "B"%string] = Return [].
Proof.
  apply (get_directions_service_down (fun x => x) geocode_two
           (fun _ => Json response_pair) (fun _ _ => RequestException)
           (Some "key"%string) ["A"%string; "B"%string] _
           optimize_route_pair).
  reflexivity.
Defined.

End DirectionsEndpointExample.
